(** * Observer chain of blockspire/go-ethereum (package les/observer)

    Shallow embedding of the observer block, statement, trie database and
    chain controller, together with the pieces of the external libraries they
    call (the RLP codec of package rlp, the Merkle-Patricia trie used by
    types.DeriveSha, the keccak256 and ECDSA primitives). *)

From Stdlib Require Import String List NArith ZArith Lia Bool.
From Stdlib Require Import Strings.Byte.
Import ListNotations.

(* ------------------------------------------------------------------ *)
(** ** Bytes and big-endian integers *)

(** A Go [[]byte]. *)
Definition bytes := list byte.

(** [byte(n)]: the low 8 bits of [n]. *)
Definition byte_of_N (n : N) : byte :=
  match Byte.of_N (n mod 256) with Some b => b | None => x00 end.

(** Minimal big-endian encoding, as [big.Int.Bytes()] and the size prefix
    written by the rlp encoder ([putint]). The fuel bounds the number of
    bytes. *)
Fixpoint be_aux (fuel : nat) (n : N) : bytes :=
  match fuel with
  | O => []
  | S f => if (n =? 0)%N then [] else be_aux f (n / 256) ++ [byte_of_N n]
  end.

Definition be_bytes (n : N) : bytes := be_aux (S (N.to_nat (N.log2 n))) n.

(** Big-endian value of a byte string ([binary.BigEndian.Uint64] on the
    zero-padded buffer, [big.Int.SetBytes]). *)
Definition be_value (bs : bytes) : N :=
  fold_left (fun acc b => acc * 256 + Byte.to_N b)%N bs 0%N.

(** Does a byte string start with a zero byte. *)
Definition leading_zero (bs : bytes) : bool :=
  match bs with b :: _ => (Byte.to_N b =? 0)%N | [] => false end.

Definition two64 : N := 18446744073709551616%N.

(** Go's [uint64(x)] conversion. *)
Definition u64 (z : Z) : N := Z.to_N (z mod Z.pos 18446744073709551616).

(* ------------------------------------------------------------------ *)
(** ** Results *)

(** A Go [(value, error)] pair where exactly one side is meaningful. *)
Inductive result (A E : Type) : Type :=
| Ok (a : A)
| Err (e : E).
Arguments Ok {A E} a.
Arguments Err {A E} e.

(* ------------------------------------------------------------------ *)
(** ** The rlp package *)

Module Rlp.

(** Errors of the rlp decoder. *)
Inductive error :=
| ErrCanonSize | ErrCanonInt | ErrExpectedString | ErrExpectedList
| ErrUintOverflow | ErrValueTooLarge | ErrUnexpectedEOF
| ErrTooFewElements | ErrTooManyElements | ErrStringTooShort | ErrStringTooLong.

(** [puthead]: a size-prefixed header; [offset] is 0x80 for strings and
    0xC0 for lists. *)
Definition enc_header (offset : N) (len : nat) : bytes :=
  if (N.of_nat len <? 56)%N then [byte_of_N (offset + N.of_nat len)]
  else let lb := be_bytes (N.of_nat len) in
       byte_of_N (offset + 55 + N.of_nat (length lb)) :: lb.

(** [encodeString]: a single byte below 0x80 is its own encoding. *)
Definition enc_string (bs : bytes) : bytes :=
  match bs with
  | [b] => if (Byte.to_N b <? 128)%N then [b] else enc_header 128 1 ++ bs
  | _ => enc_header 128 (length bs) ++ bs
  end.

(** A list whose payload is the concatenation of its encoded elements. *)
Definition enc_list (payload : bytes) : bytes :=
  enc_header 192 (length payload) ++ payload.

(** [writeUint] and [writeBigInt] (non-negative values): the minimal
    big-endian bytes as a string, zero being the empty string. *)
Definition enc_uint (n : N) : bytes := enc_string (be_bytes n).

Inductive Kind := KString | KList.

Definition kind_offset (k : Kind) : N :=
  match k with KString => 128 | KList => 192 end.

(** The content of a value of the given kind and size, and what follows it
    ([Stream.Kind] checks the size against the remaining input; a one-byte
    string below 0x80 is not canonical). *)
Definition take_content (k : Kind) (size : N) (rest : bytes)
  : result (Kind * bytes * bytes) error :=
  if (N.of_nat (length rest) <? size)%N then Err ErrValueTooLarge
  else
    let c := firstn (N.to_nat size) rest in
    let r := skipn (N.to_nat size) rest in
    match k, c with
    | KString, [x] => if (Byte.to_N x <? 128)%N then Err ErrCanonSize else Ok (k, c, r)
    | _, _ => Ok (k, c, r)
    end.

(** [Stream.readUint] for the size of a long string or list. *)
Definition read_size (n : nat) (rest : bytes) : result (N * bytes) error :=
  if length rest <? n then Err ErrUnexpectedEOF
  else
    let lb := firstn n rest in
    if leading_zero lb then Err ErrCanonSize
    else
      let size := be_value lb in
      if (size <? 56)%N then Err ErrCanonSize else Ok (size, skipn n rest).

(** [Stream.readKind] followed by reading the content: the kind, the
    content bytes and the remaining input. *)
Definition split (bs : bytes) : result (Kind * bytes * bytes) error :=
  match bs with
  | [] => Err ErrUnexpectedEOF
  | b :: rest =>
    let t := Byte.to_N b in
    if (t <? 128)%N then Ok (KString, [b], rest)
    else if (t <? 184)%N then take_content KString (t - 128) rest
    else if (t <? 192)%N then
      match read_size (N.to_nat (t - 183)) rest with
      | Ok (size, rest') => take_content KString size rest'
      | Err e => Err e
      end
    else if (t <? 248)%N then take_content KList (t - 192) rest
    else
      match read_size (N.to_nat (t - 247)) rest with
      | Ok (size, rest') => take_content KList size rest'
      | Err e => Err e
      end
  end.

(** Value decoders: [Stream.Bytes], [Stream.uint] (64 bits),
    [decodeBigInt], [decodeByteArray] for [[32]byte], [decodeString]. *)
Definition dec_bytes (k : Kind) (c : bytes) : result bytes error :=
  match k with KString => Ok c | KList => Err ErrExpectedString end.

Definition dec_uint64 (k : Kind) (c : bytes) : result N error :=
  match k with
  | KList => Err ErrExpectedString
  | KString =>
      if 8 <? length c then Err ErrUintOverflow
      else if leading_zero c then Err ErrCanonInt
      else Ok (be_value c)
  end.

Definition dec_bigint (k : Kind) (c : bytes) : result N error :=
  match k with
  | KList => Err ErrExpectedString
  | KString => if leading_zero c then Err ErrCanonInt else Ok (be_value c)
  end.

Definition dec_hash (k : Kind) (c : bytes) : result bytes error :=
  match k with
  | KList => Err ErrExpectedString
  | KString =>
      if 32 <? length c then Err ErrStringTooLong
      else if length c <? 32 then Err ErrStringTooShort
      else Ok c
  end.

Definition dec_string (k : Kind) (c : bytes) : result string error :=
  match dec_bytes k c with Ok b => Ok (string_of_list_byte b) | Err e => Err e end.

(** Decoding a struct into a target of type [T]: after [s.List()], each
    field decoder reads one element and stores it into the target as soon as
    it is decoded (the target is updated in place); at the end [s.ListEnd()]
    refuses leftover elements. A field decoder maps the target and the
    remaining list content to the updated target and the rest. *)
Definition fieldDec (T : Type) := T -> bytes -> T * result bytes error.

Definition field {T A} (d : Kind -> bytes -> result A error) (set : T -> A -> T)
  : fieldDec T :=
  fun t c =>
    match c with
    | [] => (t, Err ErrTooFewElements)
    | _ :: _ =>
        match split c with
        | Err e => (t, Err e)
        | Ok (k, v, rest) =>
            match d k v with
            | Err e => (t, Err e)
            | Ok a => (set t a, Ok rest)
            end
        end
    end.

Definition then_field {T} (f g : fieldDec T) : fieldDec T :=
  fun t c =>
    let (t1, r) := f t c in
    match r with Err e => (t1, Err e) | Ok c' => g t1 c' end.

Definition decode_struct {T} (fields : fieldDec T) (t : T) (bs : bytes)
  : T * result bytes error :=
  match split bs with
  | Err e => (t, Err e)
  | Ok (KString, _, _) => (t, Err ErrExpectedList)
  | Ok (KList, c, rest) =>
      let (t1, r) := fields t c in
      match r with
      | Err e => (t1, Err e)
      | Ok [] => (t1, Ok rest)
      | Ok (_ :: _) => (t1, Err ErrTooManyElements)
      end
  end.

(** A struct held in a field of another struct, decoded into a fresh
    target [t] from the field's kind and content. *)
Definition dec_struct_in {T} (fields : fieldDec T) (t : T) (k : Kind) (c : bytes)
  : result T error :=
  match k with
  | KString => Err ErrExpectedList
  | KList =>
      let (t1, r) := fields t c in
      match r with
      | Err e => Err e
      | Ok [] => Ok t1
      | Ok (_ :: _) => Err ErrTooManyElements
      end
  end.

(** A slice of elements each decoded by [d] until the end of the list
    ([decodeListSlice]); the fuel is the content length, every element
    taking at least one byte. *)
Fixpoint dec_elems {A} (fuel : nat) (d : bytes -> result (A * bytes) error) (c : bytes)
  : result (list A) error :=
  match c with
  | [] => Ok []
  | _ :: _ =>
      match fuel with
      | O => Err ErrValueTooLarge
      | S f =>
          match d c with
          | Err e => Err e
          | Ok (a, rest) =>
              match dec_elems f d rest with Ok l => Ok (a :: l) | Err e => Err e end
          end
      end
  end.

End Rlp.

(* ------------------------------------------------------------------ *)
(** ** External primitives *)

(** [common.Hash], a 32-byte digest. *)
Definition Hash := bytes.

(** [common.Hash{}]. *)
Definition zeroHash : Hash := repeat x00 32.

(** keccak256 ([crypto.Keccak256], [sha3.NewKeccak256]) and ECDSA signing
    ([crypto.Sign(digest, key)], [None] standing for a returned error); the
    private key is its scalar [D]. *)
Class Crypto := {
  Keccak256 : bytes -> Hash;
  crypto_Sign : bytes -> N -> option bytes;
  (** a signature is 65 bytes, [R || S || V] *)
  crypto_Sign_length : forall d k sig, crypto_Sign d k = Some sig -> length sig = 65
}.

(** A key/value store ([ethdb.Database], in memory): [Get] reports a
    missing key as [None]. *)
Definition Database := bytes -> option bytes.

Definition Put (db : Database) (key value : bytes) : Database :=
  fun k => if list_eq_dec Byte.byte_eq_dec key k then Some value else db k.

Section Primitives.
Context {C : Crypto}.

(** [sig, _ := crypto.Sign(...)]: the error is dropped and [sig] is nil. *)
Definition signature_of (digest : bytes) (privKey : N) : bytes :=
  match crypto_Sign digest privKey with Some sig => sig | None => [] end.

End Primitives.

(* ------------------------------------------------------------------ *)
(** ** Statements (les/observer statement.go, key/value variant) *)

Module Stmt.

(** [keyValue]; the signature values are [*big.Int], non-negative. *)
Record keyValue := mkKeyValue {
  Key : bytes;
  Value : bytes;
  V : N;
  R : N;
  S_ : N
}.

(** [Statement] with its two caches ([atomic.Value], [None] when unset). *)
Record Statement := mkStatement {
  kv : keyValue;
  hash : option Hash;
  size : option N
}.

(** [newStatement]: copies of key and value, zero signature values. *)
Definition NewStatement (key value : bytes) : Statement :=
  {| kv := {| Key := key; Value := value; V := 0; R := 0; S_ := 0 |};
     hash := None; size := None |}.

(** A [new(Statement)]: every field at its zero value. *)
Definition zero : Statement :=
  {| kv := {| Key := []; Value := []; V := 0; R := 0; S_ := 0 |};
     hash := None; size := None |}.

(** [rlp.Encode(w, &s.kv)]. *)
Definition kv_rlp (x : keyValue) : bytes :=
  Rlp.enc_list (Rlp.enc_string (Key x) ++ Rlp.enc_string (Value x) ++
                Rlp.enc_uint (V x) ++ Rlp.enc_uint (R x) ++ Rlp.enc_uint (S_ x)).

Definition EncodeRLP (s : Statement) : bytes := kv_rlp (kv s).

Definition set_Key (x : keyValue) (b : bytes) : keyValue :=
  {| Key := b; Value := Value x; V := V x; R := R x; S_ := S_ x |}.
Definition set_Value (x : keyValue) (b : bytes) : keyValue :=
  {| Key := Key x; Value := b; V := V x; R := R x; S_ := S_ x |}.
Definition set_V (x : keyValue) (n : N) : keyValue :=
  {| Key := Key x; Value := Value x; V := n; R := R x; S_ := S_ x |}.
Definition set_R (x : keyValue) (n : N) : keyValue :=
  {| Key := Key x; Value := Value x; V := V x; R := n; S_ := S_ x |}.
Definition set_S (x : keyValue) (n : N) : keyValue :=
  {| Key := Key x; Value := Value x; V := V x; R := R x; S_ := n |}.

(** The struct decoder of [keyValue]: fields in declaration order. *)
Definition kv_fields : Rlp.fieldDec keyValue :=
  Rlp.then_field (Rlp.field Rlp.dec_bytes set_Key)
  (Rlp.then_field (Rlp.field Rlp.dec_bytes set_Value)
  (Rlp.then_field (Rlp.field Rlp.dec_bigint set_V)
  (Rlp.then_field (Rlp.field Rlp.dec_bigint set_R)
                  (Rlp.field Rlp.dec_bigint set_S)))).

(** [rlp.ListSize]: the encoded size of a list with the given content size. *)
Definition ListSize (size : nat) : N :=
  N.of_nat (length (Rlp.enc_header 192 size) + size).

(** [DecodeRLP]: [str.Kind()] (its error ignored), then [str.Decode(&s.kv)]
    straight into the statement's own [kv], then the size cache when there was
    no error. Returns the statement and the rest of the input, or the error. *)
Definition DecodeRLP (s : Statement) (input : bytes) : Statement * result bytes Rlp.error :=
  let sz := match Rlp.split input with Ok (_, c, _) => length c | Err _ => 0 end in
  let (kv', r) := Rlp.decode_struct kv_fields (kv s) input in
  match r with
  | Ok rest => ({| kv := kv'; hash := hash s; size := Some (ListSize sz) |}, Ok rest)
  | Err e => ({| kv := kv'; hash := hash s; size := size s |}, Err e)
  end.

(** [Key()] and [Value()] return copies. *)
Definition KeyOf (s : Statement) : bytes := Key (kv s).
Definition ValueOf (s : Statement) : bytes := Value (kv s).

Section WithCrypto.
Context {C : Crypto}.

(** [Hash]: keccak256 of the encoding, computed on first call and cached. *)
Definition HashOf (s : Statement) : Hash * Statement :=
  match hash s with
  | Some h => (h, s)
  | None => let v := Keccak256 (EncodeRLP s) in
            (v, {| kv := kv s; hash := Some v; size := size s |})
  end.

End WithCrypto.

(** [Statements.GetRlp(i)]. *)
Definition GetRlp (sts : list Statement) (i : nat) : bytes :=
  EncodeRLP (nth i sts zero).

End Stmt.

(* ------------------------------------------------------------------ *)
(** ** The Merkle-Patricia trie used by [types.DeriveSha] (package trie) *)

Module Trie.

(** Keys are hex nibbles; [16] is the terminator. *)
Definition nibbles := list nat.

(** [node]: [nil], [*shortNode], [*fullNode] (17 children, the last one a
    value), [valueNode], [hashNode]. *)
#[warnings="-register-all"]
Inductive node :=
| NilNode
| ShortNode (key : nibbles) (val : node)
| FullNode (children : list node)
| ValueNode (v : bytes)
| HashNode (h : Hash).

(** [keybytesToHex]. *)
Definition keybytesToHex (str : bytes) : nibbles :=
  flat_map (fun b => [N.to_nat (Byte.to_N b / 16); N.to_nat (Byte.to_N b mod 16)]) str
  ++ [16].

Definition hasTerm (s : nibbles) : bool :=
  match rev s with 16 :: _ => true | _ => false end.

(** [decodeNibbles]. *)
Fixpoint decodeNibbles (s : nibbles) : bytes :=
  match s with
  | a :: b :: s' => byte_of_N (N.of_nat (a * 16 + b)) :: decodeNibbles s'
  | _ => []
  end.

(** [hexToCompact]: flag byte (terminator bit 5, odd bit 4, first odd
    nibble), then the packed nibbles. *)
Definition hexToCompact (hex : nibbles) : bytes :=
  let '(terminator, h) := if hasTerm hex then (1, removelast hex) else (0, hex) in
  if Nat.odd (length h) then
    byte_of_N (N.of_nat (terminator * 32 + 16 + hd 0 h)) :: decodeNibbles (tl h)
  else byte_of_N (N.of_nat (terminator * 32)) :: decodeNibbles h.

(** [prefixLen]. *)
Fixpoint prefixLen (a b : nibbles) : nat :=
  match a, b with
  | x :: a', y :: b' => if x =? y then S (prefixLen a' b') else 0
  | _, _ => 0
  end.

Definition emptyChildren : list node := repeat NilNode 17.

(** [children[i] = c]. *)
Fixpoint set_child (i : nat) (c : node) (cs : list node) : list node :=
  match cs, i with
  | [], _ => []
  | _ :: cs', O => c :: cs'
  | x :: cs', S j => x :: set_child j c cs'
  end.

(** [insert(nil, prefix, key, value)]. *)
Definition insert_nil (key : nibbles) (value : node) : node :=
  match key with [] => value | _ :: _ => ShortNode key value end.

(** [Trie.insert] (the in-memory trie of [DeriveSha] holds no hash node;
    a value node with a non-empty key is not reached: the keys of a trie all
    end in the terminator, on which values sit). *)
Fixpoint insert (n : node) (key : nibbles) (value : node) {struct n} : node :=
  match key with
  | [] => value
  | k0 :: krest =>
    match n with
    | ShortNode nk nv =>
        let matchlen := prefixLen key nk in
        if matchlen =? length nk then ShortNode nk (insert nv (skipn matchlen key) value)
        else
          let branch :=
            FullNode (set_child (nth matchlen key 0) (insert_nil (skipn (S matchlen) key) value)
                     (set_child (nth matchlen nk 0) (insert_nil (skipn (S matchlen) nk) nv)
                       emptyChildren)) in
          if matchlen =? 0 then branch else ShortNode (firstn matchlen key) branch
    | FullNode cs =>
        FullNode ((fix go (i : nat) (cs : list node) : list node :=
                     match cs with
                     | [] => []
                     | c :: cs' => (if i =? k0 then insert c krest value else c) :: go (S i) cs'
                     end) 0 cs)
    | NilNode => ShortNode key value
    | ValueNode _ => n
    | HashNode _ => n
    end
  end.

(** The single non-nil child of a full node, if there is exactly one. *)
Fixpoint single_child_aux (i : nat) (cs : list node) (pos : option nat) : option nat :=
  match cs with
  | [] => pos
  | NilNode :: cs' => single_child_aux (S i) cs' pos
  | _ :: cs' => match pos with None => single_child_aux (S i) cs' (Some i) | Some _ => None end
  end.

(** [Trie.delete]. *)
Fixpoint delete (n : node) (key : nibbles) {struct n} : node :=
  match n with
  | ShortNode nk nv =>
      let matchlen := prefixLen key nk in
      if matchlen <? length nk then n
      else if matchlen =? length key then NilNode
      else
        match delete nv (skipn (length nk) key) with
        | ShortNode ck cv => ShortNode (nk ++ ck) cv
        | child => ShortNode nk child
        end
  | FullNode cs =>
      let k0 := nth 0 key 0 in
      let cs' := (fix go (i : nat) (cs : list node) : list node :=
                    match cs with
                    | [] => []
                    | c :: cs' => (if i =? k0 then delete c (tl key) else c) :: go (S i) cs'
                    end) 0 cs in
      match single_child_aux 0 cs' None with
      | Some pos =>
          if pos =? 16 then ShortNode [pos] (nth pos cs' NilNode)
          else match nth pos cs' NilNode with
               | ShortNode ck cv => ShortNode (pos :: ck) cv
               | c => ShortNode [pos] c
               end
      | None => FullNode cs'
      end
  | ValueNode _ => NilNode
  | NilNode => NilNode
  | HashNode _ => n
  end.

(** [Trie.Update]: an empty value deletes the key. *)
Definition Update (root : node) (key value : bytes) : node :=
  let k := keybytesToHex key in
  match value with
  | [] => delete root k
  | _ :: _ => insert root k (ValueNode value)
  end.

Section Hasher.
Context {C : Crypto}.

(** The RLP encoding of the node that [hasher.hashChildren] makes of [n]
    (keys in compact form, children replaced by their references: nodes
    whose encoding is under 32 bytes are embedded, the others replaced by
    their keccak256, nil children by the empty string). *)
Fixpoint collapsed_rlp (n : node) : bytes :=
  let ref (e : bytes) := if length e <? 32 then e else Rlp.enc_string (Keccak256 e) in
  match n with
  | NilNode => Rlp.enc_string []
  | HashNode h => Rlp.enc_string h
  | ValueNode v => Rlp.enc_string v
  | ShortNode k v =>
      Rlp.enc_list (Rlp.enc_string (hexToCompact k) ++
        match v with
        | ValueNode b => Rlp.enc_string b
        | NilNode => Rlp.enc_string []
        | HashNode h => Rlp.enc_string h
        | _ => ref (collapsed_rlp v)
        end)
  | FullNode cs =>
      Rlp.enc_list ((fix go (i : nat) (cs : list node) : bytes :=
        match cs with
        | [] => []
        | c :: cs' =>
            match c with
            | NilNode => Rlp.enc_string []
            | HashNode h => Rlp.enc_string h
            | ValueNode b => if i =? 16 then Rlp.enc_string b else ref (collapsed_rlp c)
            | _ => ref (collapsed_rlp c)
            end ++ go (S i) cs'
        end) 0 cs)
  end.

(** [emptyRoot], keccak256 of the encoding of the empty string. *)
Definition emptyRoot : Hash := Keccak256 (Rlp.enc_string []).

(** [trie.New(root, db)] on a fresh node database: a zero or empty root
    gives an empty trie, any other root is resolved from the store and is
    reported missing when absent. The opened trie is given by its root. *)
Definition New (root : Hash) (db : Database) : result Hash Hash :=
  if list_eq_dec Byte.byte_eq_dec root zeroHash then Ok root
  else if list_eq_dec Byte.byte_eq_dec root emptyRoot then Ok root
  else match db root with
       | Some _ => Ok root
       | None => Err root
       end.

(** [Trie.Hash]: the root is hashed with [force] set. *)
Definition TrieHash (root : node) : Hash :=
  match root with
  | NilNode => emptyRoot
  | HashNode h => h
  | _ => Keccak256 (collapsed_rlp root)
  end.

End Hasher.

End Trie.

(** [types.DeriveSha]: item [i] is stored under the encoding of [uint(i)]. *)
Fixpoint DeriveSha_aux (i : nat) (root : Trie.node) (items : list bytes) : Trie.node :=
  match items with
  | [] => root
  | v :: items' => DeriveSha_aux (S i) (Trie.Update root (Rlp.enc_uint (N.of_nat i)) v) items'
  end.

Section DeriveShaDef.
Context {C : Crypto}.

Definition DeriveSha (list : list bytes) : Hash :=
  Trie.TrieHash (DeriveSha_aux 0 Trie.NilNode list).

(** [types.EmptyRootHash] ([DeriveSha(Transactions{})]). *)
Definition EmptyRootHash : Hash := DeriveSha [].

End DeriveShaDef.

(* ------------------------------------------------------------------ *)
(** ** Blocks with a header (les/observer block.go, header variant) *)

Module Blk.

Record Header := mkHeader {
  PrevHash : Hash;
  Number : N;
  Time : N;
  StmtsRoot : Hash;
  SignatureType : string;
  Signature : bytes
}.

(** The zero [Header]. *)
Definition zeroHeader : Header :=
  {| PrevHash := zeroHash; Number := 0; Time := 0; StmtsRoot := zeroHash;
     SignatureType := ""; Signature := [] |}.

(** The fields of [Header] encoded in order, the list content of its
    encoding. *)
Definition Header_payload (h : Header) : bytes :=
  Rlp.enc_string (PrevHash h) ++ Rlp.enc_uint (Number h) ++ Rlp.enc_uint (Time h) ++
  Rlp.enc_string (StmtsRoot h) ++ Rlp.enc_string (list_byte_of_string (SignatureType h)) ++
  Rlp.enc_string (Signature h).

Definition Header_rlp (h : Header) : bytes := Rlp.enc_list (Header_payload h).

Definition set_PrevHash (h : Header) (v : Hash) : Header :=
  {| PrevHash := v; Number := Number h; Time := Time h; StmtsRoot := StmtsRoot h;
     SignatureType := SignatureType h; Signature := Signature h |}.
Definition set_Number (h : Header) (v : N) : Header :=
  {| PrevHash := PrevHash h; Number := v; Time := Time h; StmtsRoot := StmtsRoot h;
     SignatureType := SignatureType h; Signature := Signature h |}.
Definition set_Time (h : Header) (v : N) : Header :=
  {| PrevHash := PrevHash h; Number := Number h; Time := v; StmtsRoot := StmtsRoot h;
     SignatureType := SignatureType h; Signature := Signature h |}.
Definition set_StmtsRoot (h : Header) (v : Hash) : Header :=
  {| PrevHash := PrevHash h; Number := Number h; Time := Time h; StmtsRoot := v;
     SignatureType := SignatureType h; Signature := Signature h |}.
Definition set_SignatureType (h : Header) (v : string) : Header :=
  {| PrevHash := PrevHash h; Number := Number h; Time := Time h; StmtsRoot := StmtsRoot h;
     SignatureType := v; Signature := Signature h |}.
Definition set_Signature (h : Header) (v : bytes) : Header :=
  {| PrevHash := PrevHash h; Number := Number h; Time := Time h; StmtsRoot := StmtsRoot h;
     SignatureType := SignatureType h; Signature := v |}.

Definition Header_fields : Rlp.fieldDec Header :=
  Rlp.then_field (Rlp.field Rlp.dec_hash set_PrevHash)
  (Rlp.then_field (Rlp.field Rlp.dec_uint64 set_Number)
  (Rlp.then_field (Rlp.field Rlp.dec_uint64 set_Time)
  (Rlp.then_field (Rlp.field Rlp.dec_hash set_StmtsRoot)
  (Rlp.then_field (Rlp.field Rlp.dec_string set_SignatureType)
                  (Rlp.field Rlp.dec_bytes set_Signature))))).

(** [Header.sign]'s data: the header with the signature left nil. *)
Definition unsignedData (h : Header) : Header :=
  {| PrevHash := PrevHash h; Number := Number h; Time := Time h; StmtsRoot := StmtsRoot h;
     SignatureType := SignatureType h; Signature := [] |}.

Record Block := mkBlock {
  header : Header;
  statements : list Stmt.Statement;
  hash : option Hash;
  size : option N
}.

(** [new(Block)]. *)
Definition zero : Block :=
  {| header := zeroHeader; statements := []; hash := None; size := None |}.

(** [encBlock]. *)
Record encBlock := mkEncBlock {
  enc_Header : Header;
  enc_Statements : list Stmt.Statement
}.

Definition encBlock_payload (h : Header) (sts : list Stmt.Statement) : bytes :=
  Header_rlp h ++ Rlp.enc_list (concat (map Stmt.EncodeRLP sts)).

(** [EncodeRLP]: the encoding of [encBlock{b.header, b.statements}]. *)
Definition EncodeRLP (b : Block) : bytes :=
  Rlp.enc_list (encBlock_payload (header b) (statements b)).

(** One element of [[]*Statement]: a [new(Statement)] decoded by its
    [DecodeRLP]. *)
Definition dec_stmt (c : bytes) : result (Stmt.Statement * bytes) Rlp.error :=
  let (s, r) := Stmt.DecodeRLP Stmt.zero c in
  match r with Ok rest => Ok (s, rest) | Err e => Err e end.

Definition dec_stmts (k : Rlp.Kind) (c : bytes) : result (list Stmt.Statement) Rlp.error :=
  match k with
  | Rlp.KString => Err Rlp.ErrExpectedList
  | Rlp.KList => Rlp.dec_elems (length c) dec_stmt c
  end.

Definition set_enc_Header (e : encBlock) (h : Header) : encBlock :=
  {| enc_Header := h; enc_Statements := enc_Statements e |}.
Definition set_enc_Statements (e : encBlock) (sts : list Stmt.Statement) : encBlock :=
  {| enc_Header := enc_Header e; enc_Statements := sts |}.

(** [*Header] is decoded into a freshly allocated header. *)
Definition encBlock_fields : Rlp.fieldDec encBlock :=
  Rlp.then_field (Rlp.field (Rlp.dec_struct_in Header_fields zeroHeader) set_enc_Header)
                 (Rlp.field dec_stmts set_enc_Statements).

(** [DecodeRLP]: decodes into a local [encBlock] and assigns the block only
    when decoding succeeded. *)
Definition DecodeRLP (b : Block) (input : bytes) : Block * result bytes Rlp.error :=
  let sz := match Rlp.split input with Ok (_, c, _) => length c | Err _ => 0 end in
  let (enc, r) := Rlp.decode_struct encBlock_fields
                    {| enc_Header := zeroHeader; enc_Statements := [] |} input in
  match r with
  | Err e => (b, Err e)
  | Ok rest =>
      ({| header := enc_Header enc; statements := enc_Statements enc; hash := hash b;
          size := Some (Stmt.ListSize sz) |}, Ok rest)
  end.

(** The items hashed by [types.DeriveSha(Statements(stmts))]. *)
Definition Statements_rlps (sts : list Stmt.Statement) : list bytes :=
  map (Stmt.GetRlp sts) (seq 0 (length sts)).

Section WithCrypto.
Context {C : Crypto}.

(** [Header.hash]. *)
Definition header_hash (h : Header) : Hash := Keccak256 (Header_rlp h).

(** [Header.sign]. *)
Definition sign (h : Header) (privKey : N) : Header :=
  set_Signature h (signature_of (Keccak256 (Header_rlp (unsignedData h))) privKey).

(** [Block.Hash], memoized. *)
Definition HashOf (b : Block) : Hash * Block :=
  match hash b with
  | Some v => (v, b)
  | None =>
      let v := header_hash (header b) in
      (v, {| header := header b; statements := statements b; hash := Some v; size := size b |})
  end.

Definition stmts_root (stmts : list Stmt.Statement) : Hash :=
  match stmts with
  | [] => EmptyRootHash
  | _ :: _ => DeriveSha (Statements_rlps stmts)
  end.

(** [NewBlock(stmts, privKey)] at Unix time [now]. *)
Definition NewBlock (stmts : list Stmt.Statement) (privKey : N) (now : Z) : Block :=
  let h := {| PrevHash := zeroHash; Number := 0; Time := u64 now;
              StmtsRoot := stmts_root stmts; SignatureType := "ECDSA"; Signature := [] |} in
  {| header := sign h privKey; statements := stmts; hash := None; size := None |}.

(** [b.CreateSuccessor(stmts, privKey)] at Unix time [now]; the successor,
    and [b] with its hash cache filled by [b.Hash()]. The number is the
    uint64 sum of [b]'s header number and one. *)
Definition CreateSuccessor (b : Block) (stmts : list Stmt.Statement) (privKey : N) (now : Z)
  : Block * Block :=
  let (prev, b') := HashOf b in
  let h := {| PrevHash := prev; Number := u64 (Z.of_N (Number (header b)) + 1);
              Time := u64 now; StmtsRoot := stmts_root stmts;
              SignatureType := "ECDSA"; Signature := [] |} in
  ({| header := sign h privKey; statements := stmts; hash := None; size := None |}, b').

End WithCrypto.

End Blk.

(* ------------------------------------------------------------------ *)
(** ** Database accessors (les/observer database_util.go) *)

Module DbUtil.

Definition blockPrefix : bytes := list_byte_of_string "obs-".
Definition lastBlockKey : bytes := list_byte_of_string "lastBlock".

(** [binary.BigEndian.PutUint64]. *)
Definition be64 (n : N) : bytes :=
  map (fun sh => byte_of_N (N.shiftr n sh)) [56; 48; 40; 32; 24; 16; 8; 0]%N.

Definition mkBlockKey (number : N) : bytes := blockPrefix ++ be64 number.

(** [GetBlock]: the read error is dropped (a missing key reads as nil);
    empty data and undecodable data give nil. *)
Definition GetBlock (db : Database) (number : N) : option Blk.Block :=
  let data := match db (mkBlockKey number) with Some d => d | None => [] end in
  match data with
  | [] => None
  | _ :: _ =>
      let (b, r) := Blk.DecodeRLP Blk.zero data in
      match r with Ok _ => Some b | Err _ => None end
  end.

(** [WriteBlock]: stores the encoding under the block's number; it always
    returns nil (a failed [Put] stops the process). *)
Definition WriteBlock (db : Database) (block : Blk.Block) : Database * option Rlp.error :=
  (Put db (mkBlockKey (Blk.Number (Blk.header block))) (Blk.EncodeRLP block), None).

(** [WriteLastObserverBlockHash], which also always returns nil. *)
Definition WriteLastObserverBlockHash (db : Database) (hash : Hash) : Database * option Rlp.error :=
  (Put db lastBlockKey hash, None).

End DbUtil.

(* ------------------------------------------------------------------ *)
(** ** The first block of a chain (les/observer block.go, flat variant) *)

Module Genesis.

Section WithCrypto.
Context {C : Crypto}.

(** [NewBlock(privKey)] at Unix time [now]: zero previous hash, number 0,
    zero trie root, signed over the encoding of the same six fields with
    the signature nil (the header encoding of the block model). *)
Definition NewBlock (privKey : N) (now : Z) : Blk.Block :=
  let b := {| Blk.PrevHash := zeroHash; Blk.Number := 0; Blk.Time := u64 now;
              Blk.StmtsRoot := zeroHash; Blk.SignatureType := "ECDSA"; Blk.Signature := [] |} in
  {| Blk.header := Blk.sign b privKey; Blk.statements := []; Blk.hash := None; Blk.size := None |}.

End WithCrypto.

End Genesis.

(* ------------------------------------------------------------------ *)
(** ** The observer chain (les/observer chain.go) *)

Module Chain.

(** [locked], [unlocked], [unlocking]. *)
Inductive status := locked | unlocked | unlocking.

Inductive error :=
| ErrNoFirstBlock
| ErrNoBlock
| ErrTrieIsAlreadyLocked
| ErrEncode (e : Rlp.error).

(** [Chain]; the database is passed to every operation, the chain holding
    a handle on it. [trieStatus] is the [atomic.Value], [None] when nothing
    was stored. [firstBlock] and [currentBlock] are one pointer after
    [NewChain], so both carry the same cache. *)
Record Chain := mkChain {
  firstBlock : Blk.Block;
  currentBlock : Blk.Block;
  privateKey : N;
  trieStatus : option status
}.

Definition set_trieStatus (o : Chain) (s : status) : Chain :=
  {| firstBlock := firstBlock o; currentBlock := currentBlock o;
     privateKey := privateKey o; trieStatus := Some s |}.

Section WithCrypto.
Context {C : Crypto}.

(** [NewChain(db, privKey)] at Unix time [now]: the updated store and the
    result, [Ok None] standing for the [nil, nil] return. *)
Definition NewChain (db : Database) (privKey : N) (now : Z)
  : Database * result (option Chain) error :=
  let firstBlock0 := match DbUtil.GetBlock db 0 with
                     | Some b => b
                     | None => Genesis.NewBlock privKey now
                     end in
  let (db1, werr) := DbUtil.WriteBlock db firstBlock0 in
  match werr with
  | Some e => (db1, Err (ErrEncode e))
  | None =>
      let (h, firstBlock1) := Blk.HashOf firstBlock0 in
      let (db2, herr) := DbUtil.WriteLastObserverBlockHash db1 h in
      match herr with
      | Some _ => (db2, Ok None)
      | None =>
          (db2, Ok (Some {| firstBlock := firstBlock1; currentBlock := firstBlock1;
                            privateKey := privKey; trieStatus := Some unlocked |}))
      end
  end.

(** [Block(number)]. *)
Definition Block (db : Database) (o : Chain) (number : N) : result Blk.Block error :=
  match DbUtil.GetBlock db number with
  | None => Err ErrNoBlock
  | Some b => Ok b
  end.

(** [LockAndGetTrie]: the chain after the call and the result, the opened
    trie given by its root. *)
Definition LockAndGetTrie (db : Database) (o : Chain) : Chain * result Hash error :=
  match trieStatus o with
  | None | Some unlocked =>
      let o1 := set_trieStatus o locked in
      match Trie.New (Blk.StmtsRoot (Blk.header (currentBlock o1))) db with
      | Ok tr => (o1, Ok tr)
      | Err _ => (o1, Err ErrTrieIsAlreadyLocked)
      end
  | Some _ => (o, Err ErrTrieIsAlreadyLocked)
  end.

End WithCrypto.

(** [UnlockTrie]: the branch taken when the trie is locked is empty. *)
Definition UnlockTrie (o : Chain) : Chain :=
  match trieStatus o with
  | Some locked => o
  | _ => o
  end.

End Chain.

(* ------------------------------------------------------------------ *)
(** ** The statement trie database (les/observer statementsdb.go) *)

Module TrieDB.

(** Tries are shared objects ([*trie.SecureTrie]): [loc] names one, and the
    heap gives the current root hash of each. *)
Definition loc := nat.
Definition heap := loc -> Hash.

Definition maxPastTries := 12.

(** [pushTrie] on [pastTries]: at capacity, [copy(p, p[1:])] shifts the
    entries down by one (the last slot keeping its value), then the last
    slot is overwritten; otherwise [append]. *)
Definition pushTrie (pastTries : list loc) (t : loc) : list loc :=
  if maxPastTries <=? length pastTries then
    let shifted := tl pastTries ++ [last pastTries t] in
    removelast shifted ++ [t]
  else pastTries ++ [t].

(** The trie returned by [OpenTrie]: a copy of a cached trie, or a trie
    opened from the backing store by [trie.NewSecure]. *)
Inductive opened :=
| FromCache (t : loc)
| FromStore (r : result Hash Hash).

(** The scan of [pastTries] from the last entry to the first. *)
Fixpoint scan_back (hp : heap) (root : Hash) (ts : list loc) : option loc :=
  match ts with
  | [] => None
  | t :: ts' =>
      if list_eq_dec Byte.byte_eq_dec (hp t) root then Some t else scan_back hp root ts'
  end.

Section WithCrypto.
Context {C : Crypto}.

Definition OpenTrie (hp : heap) (db : Database) (pastTries : list loc) (root : Hash) : opened :=
  match scan_back hp root (rev pastTries) with
  | Some t => FromCache t
  | None => FromStore (Trie.New root db)
  end.

End WithCrypto.

(** [cachedTrie.CommitTo] pushes the committed trie; [pastTries] after a
    sequence of successful commits of the given tries. *)
Fixpoint commits (pastTries : list loc) (ts : list loc) : list loc :=
  match ts with
  | [] => pastTries
  | t :: ts' => commits (pushTrie pastTries t) ts'
  end.

End TrieDB.

(* ------------------------------------------------------------------ *)
(** ** Blocks with [blockData] (les/observer block.go) *)

Module Data.

Record blockData := mkBlockData {
  PrevHash : Hash;
  Number : N;
  UnixTime : N;
  Statements : Hash;
  SignatureType : string;
  Signature : bytes
}.

Definition payload (d : blockData) : bytes :=
  Rlp.enc_string (PrevHash d) ++ Rlp.enc_uint (Number d) ++ Rlp.enc_uint (UnixTime d) ++
  Rlp.enc_string (Statements d) ++ Rlp.enc_string (list_byte_of_string (SignatureType d)) ++
  Rlp.enc_string (Signature d).

Definition rlp (d : blockData) : bytes := Rlp.enc_list (payload d).

(** [unsignedData] in [sign]. *)
Definition unsignedData (d : blockData) : blockData :=
  {| PrevHash := PrevHash d; Number := Number d; UnixTime := UnixTime d;
     Statements := Statements d; SignatureType := SignatureType d; Signature := [] |}.

Record Block := mkBlock {
  data : blockData;
  hash : option Hash;
  size : option N
}.

Section WithCrypto.
Context {C : Crypto}.

(** [blockData.hash]. *)
Definition data_hash (d : blockData) : Hash := Keccak256 (rlp d).

(** The digest [sign] signs. *)
Definition sign_digest (d : blockData) : bytes := Keccak256 (rlp (unsignedData d)).

(** [blockData.sign]. *)
Definition sign (d : blockData) (privKey : N) : blockData :=
  {| PrevHash := PrevHash d; Number := Number d; UnixTime := UnixTime d;
     Statements := Statements d; SignatureType := SignatureType d;
     Signature := signature_of (sign_digest d) privKey |}.

(** [NewBlock(sts, privKey)] at Unix time [now]. *)
Definition NewBlock (sts : list Stmt.Statement) (privKey : N) (now : Z) : Block :=
  let d := {| PrevHash := zeroHash; Number := 0; UnixTime := u64 now;
              Statements := match sts with
                            | [] => EmptyRootHash
                            | _ :: _ => DeriveSha (Blk.Statements_rlps sts)
                            end;
              SignatureType := "ECDSA"; Signature := [] |} in
  {| data := sign d privKey; hash := None; size := None |}.

End WithCrypto.

End Data.

(* ------------------------------------------------------------------ *)
(** ** Blocks signed by [Block.Sign] (les/observer block.go, [Sign] variant) *)

Module Signed.

Record Header := mkHeader {
  PrevHash : Hash;
  Number : N;
  UnixTime : N;
  Statements : Hash;
  SignatureType : string;
  Signature : bytes
}.

Definition Header_rlp (h : Header) : bytes :=
  Rlp.enc_list (Rlp.enc_string (PrevHash h) ++ Rlp.enc_uint (Number h) ++
                Rlp.enc_uint (UnixTime h) ++ Rlp.enc_string (Statements h) ++
                Rlp.enc_string (list_byte_of_string (SignatureType h)) ++
                Rlp.enc_string (Signature h)).

Record Block := mkBlock {
  header : Header;
  hash : option Hash;
  size : option N
}.

(** [rlp.EncodeToBytes(unsignedBlock)]: [unsignedBlock] is a [Block]
    value, a struct with no exported field, encoded as the empty list. *)
Definition unsignedBlock_rlp (b : Block) : bytes := Rlp.enc_list [].

Section WithCrypto.
Context {C : Crypto}.

(** [Header.Hash]. *)
Definition header_Hash (h : Header) : Hash := Keccak256 (Header_rlp h).

(** [Block.Sign]: sets the header's signature; the hash cache is left as
    it is. *)
Definition Sign (b : Block) (privKey : N) : Block :=
  let sig := signature_of (Keccak256 (unsignedBlock_rlp b)) privKey in
  let h := header b in
  {| header := {| PrevHash := PrevHash h; Number := Number h; UnixTime := UnixTime h;
                  Statements := Statements h; SignatureType := SignatureType h;
                  Signature := sig |};
     hash := hash b; size := size b |}.

(** [Block.Hash], memoized. *)
Definition HashOf (b : Block) : Hash * Block :=
  match hash b with
  | Some v => (v, b)
  | None =>
      let v := header_Hash (header b) in
      (v, {| header := header b; hash := Some v; size := size b |})
  end.

End WithCrypto.

End Signed.

(* ------------------------------------------------------------------ *)
(** ** Values the encoder writes and the decoder reads back *)

(** The encoding of a value, by kind. *)
Definition enc_kind (k : Rlp.Kind) (v : bytes) : bytes :=
  match k with Rlp.KString => Rlp.enc_string v | Rlp.KList => Rlp.enc_list v end.

(** The list content of the encoding of a [keyValue]. *)
Definition kv_payload (x : Stmt.keyValue) : bytes :=
  Rlp.enc_string (Stmt.Key x) ++ Rlp.enc_string (Stmt.Value x) ++
  Rlp.enc_uint (Stmt.V x) ++ Rlp.enc_uint (Stmt.R x) ++ Rlp.enc_uint (Stmt.S_ x).

(** Sizes fit the 64-bit size fields of the format. *)
Definition fits (l : bytes) : Prop := (N.of_nat (length l) < two64)%N.

Definition kv_wf (x : Stmt.keyValue) : Prop := fits (kv_payload x).

(** 32-byte hashes, uint64 numbers, sizes that fit. *)
Definition Header_wf (h : Blk.Header) : Prop :=
  length (Blk.PrevHash h) = 32 /\ length (Blk.StmtsRoot h) = 32 /\
  (Blk.Number h < two64)%N /\ (Blk.Time h < two64)%N /\ fits (Blk.Header_payload h).

Definition Block_wf (b : Blk.Block) : Prop :=
  Header_wf (Blk.header b) /\ Forall (fun s => kv_wf (Stmt.kv s)) (Blk.statements b) /\
  fits (Blk.encBlock_payload (Blk.header b) (Blk.statements b)).

(* ------------------------------------------------------------------ *)
(** ** A concrete instance of the primitives, to run the model *)

(** The digest is the input cut or padded with zeros to 32 bytes; signing
    returns a fixed 65-byte value. *)
Definition toy_sign (digest : bytes) (key : N) : option bytes := Some (repeat x01 65).

Definition ToyCrypto : Crypto :=
  {| Keccak256 := fun b => firstn 32 (b ++ repeat x00 32);
     crypto_Sign := toy_sign;
     crypto_Sign_length := fun d k sig (H : toy_sign d k = Some sig) =>
       match H in _ = o return match o with Some s => length s = 65 | None => True end with
       | eq_refl => eq_refl
       end |}.

(* ------------------------------------------------------------------ *)
(** ** Statement lookup entries (les/observer database_util.go) *)

Module Lookup.

Definition stmtLookupPrefix : bytes := list_byte_of_string "obssl-".

(** [mkStmtLookupKey]. *)
Definition mkStmtLookupKey (key : bytes) : bytes := stmtLookupPrefix ++ key.

(** [StmtLookupEntry]: two uint64 fields. *)
Record StmtLookupEntry := mkStmtLookupEntry {
  BlockNumber : N;
  Index : N
}.

Definition set_BlockNumber (e : StmtLookupEntry) (n : N) : StmtLookupEntry :=
  {| BlockNumber := n; Index := Index e |}.
Definition set_Index (e : StmtLookupEntry) (n : N) : StmtLookupEntry :=
  {| BlockNumber := BlockNumber e; Index := n |}.

Definition entry_fields : Rlp.fieldDec StmtLookupEntry :=
  Rlp.then_field (Rlp.field Rlp.dec_uint64 set_BlockNumber)
                 (Rlp.field Rlp.dec_uint64 set_Index).

(** The encoding of a [StmtLookupEntry] by the rlp encoder. *)
Definition entry_rlp (e : StmtLookupEntry) : bytes :=
  Rlp.enc_list (Rlp.enc_uint (BlockNumber e) ++ Rlp.enc_uint (Index e)).

(** Errors of [rlp.DecodeBytes]: those of the decoder, and input left
    after the value. *)
Inductive error :=
| DecodeError (e : Rlp.error)
| ErrMoreThanOneValue.

(** [rlp.DecodeBytes(data, &entry)]: one value is decoded from the input,
    and input left over is an error. *)
Definition DecodeBytes (e : StmtLookupEntry) (data : bytes) : StmtLookupEntry * option error :=
  let (e1, r) := Rlp.decode_struct entry_fields e data in
  match r with
  | Err err => (e1, Some (DecodeError err))
  | Ok [] => (e1, None)
  | Ok (_ :: _) => (e1, Some ErrMoreThanOneValue)
  end.

(** [GetStmtLookupEntry]: the read error is dropped (a missing key reads
    as nil); empty or undecodable data give [(0, 0, false)]. *)
Definition GetStmtLookupEntry (db : Database) (key : bytes) : N * N * bool :=
  let data := match db (mkStmtLookupKey key) with Some d => d | None => [] end in
  match data with
  | [] => (0%N, 0%N, false)
  | _ :: _ =>
      let (entry, err) := DecodeBytes {| BlockNumber := 0; Index := 0 |} data in
      match err with
      | Some _ => (0%N, 0%N, false)
      | None => (BlockNumber entry, Index entry, true)
      end
  end.

End Lookup.

(* ------------------------------------------------------------------ *)
(** ** Block and statement accessors (Block.Size, Block.EncodedNumber,
    Block.Statement, Statement.Size) *)

Module BlockOps.

(** [Block.Size]: the cached size, or else the number of bytes written by
    encoding the block, which is then cached. *)
Definition Size (b : Blk.Block) : N * Blk.Block :=
  match Blk.size b with
  | Some s => (s, b)
  | None =>
      let c := N.of_nat (length (Blk.EncodeRLP b)) in
      (c, {| Blk.header := Blk.header b; Blk.statements := Blk.statements b;
             Blk.hash := Blk.hash b; Blk.size := Some c |})
  end.

(** [Statement.Size]: the same over the encoding of the statement's [kv]. *)
Definition StmtSize (s : Stmt.Statement) : N * Stmt.Statement :=
  match Stmt.size s with
  | Some n => (n, s)
  | None =>
      let c := N.of_nat (length (Stmt.kv_rlp (Stmt.kv s))) in
      (c, {| Stmt.kv := Stmt.kv s; Stmt.hash := Stmt.hash s; Stmt.size := Some c |})
  end.

(** [Block.EncodedNumber]. *)
Definition EncodedNumber (b : Blk.Block) : bytes := DbUtil.be64 (Blk.Number (Blk.header b)).

Section WithCrypto.
Context {C : Crypto}.

(** The loop of [Block.Statement(key)]: every statement visited gets its
    hash computed and cached ([Statements] holds pointers, shared with the
    block); the first whose hash equals [key] is returned. *)
Fixpoint find_statement (key : Hash) (sts : list Stmt.Statement)
  : option Stmt.Statement * list Stmt.Statement :=
  match sts with
  | [] => (None, [])
  | s :: sts' =>
      let (h, s1) := Stmt.HashOf s in
      if list_eq_dec Byte.byte_eq_dec h key then (Some s1, s1 :: sts')
      else let (r, sts'') := find_statement key sts' in (r, s1 :: sts'')
  end.

(** [Block.Statement(key)]: the statement found ([None] for nil) and the
    block afterwards. *)
Definition Statement (b : Blk.Block) (key : Hash) : option Stmt.Statement * Blk.Block :=
  let (r, sts) := find_statement key (Blk.statements b) in
  (r, {| Blk.header := Blk.header b; Blk.statements := sts;
         Blk.hash := Blk.hash b; Blk.size := Blk.size b |}).

End WithCrypto.

End BlockOps.

(* ------------------------------------------------------------------ *)
(** ** Sequences of calls on the chain's trie lock *)

Module LockCalls.

Inductive call := CallLockAndGetTrie | CallUnlockTrie.

Definition is_lock (c : call) : bool :=
  match c with CallLockAndGetTrie => true | CallUnlockTrie => false end.

Section WithCrypto.
Context {C : Crypto}.

(** The chain after the calls, and the results of the [LockAndGetTrie]
    calls in order. *)
Fixpoint run (db : Database) (o : Chain.Chain) (cs : list call)
  : Chain.Chain * list (result Hash Chain.error) :=
  match cs with
  | [] => (o, [])
  | CallLockAndGetTrie :: cs' =>
      let (o1, r) := Chain.LockAndGetTrie db o in
      let (o2, rs) := run db o1 cs' in (o2, r :: rs)
  | CallUnlockTrie :: cs' => run db (Chain.UnlockTrie o) cs'
  end.

End WithCrypto.

End LockCalls.

(* ------------------------------------------------------------------ *)
(** ** Auxiliary notions and concrete inputs *)

(** The last [k] elements of a list. *)
Definition lastn {A} (k : nat) (l : list A) : list A := skipn (length l - k) l.

(** A trie node that is a short or a full node. *)
Definition is_branch (n : Trie.node) : Prop :=
  match n with Trie.ShortNode _ _ | Trie.FullNode _ => True | _ => False end.

(** A store holding, as block 0, a block built by [Blk.NewBlock] from one
    statement: its statement root is not a node of the store. *)
Definition store_with_block0 : Database :=
  Put (fun _ => None) (DbUtil.mkBlockKey 0)
    (Blk.EncodeRLP (@Blk.NewBlock ToyCrypto
       [Stmt.NewStatement (list_byte_of_string "foo") (list_byte_of_string "bar")] 1 0)).

(** The 13 tries [0..12], trie [i] with the one-byte root [i]. *)
Definition heap13 : TrieDB.heap := fun l => [byte_of_N (N.of_nat l)].

(** A block's data at number 0 and time 0. *)
Definition data0 : Data.blockData :=
  {| Data.PrevHash := zeroHash; Data.Number := 0; Data.UnixTime := 0;
     Data.Statements := zeroHash; Data.SignatureType := "ECDSA"; Data.Signature := [] |}.

(** A store holding under the key of block 0 a block numbered 5. *)
Definition store_with_block5_at_0 : Database :=
  Put (fun _ => None) (DbUtil.mkBlockKey 0)
    (Blk.EncodeRLP
       (let g := @Genesis.NewBlock ToyCrypto 1 0 in
        {| Blk.header := Blk.set_Number (Blk.header g) 5; Blk.statements := [];
           Blk.hash := None; Blk.size := None |})).

(** The hash [s.Hash()] returns. *)
Section StmtHash.
Context {C : Crypto}.

Definition stmt_hash (s : Stmt.Statement) : Hash := fst (Stmt.HashOf s).

End StmtHash.

(* ================================================================== *)
(** * Proofs *)

(* ------------------------------------------------------------------ *)
(** ** Lemmas on bytes *)

Lemma byte_of_N_to_N n : Byte.to_N (byte_of_N n) = (n mod 256)%N.
Proof.
  unfold byte_of_N.
  destruct (Byte.of_N (n mod 256)) eqn:E.
  - now apply Byte.to_of_N in E.
  - apply Byte.of_N_None_iff in E.
    pose proof (N.mod_lt n 256 ltac:(lia)). lia.
Qed.

Lemma byte_of_N_small n : (n < 256)%N -> Byte.to_N (byte_of_N n) = n.
Proof. intros H. rewrite byte_of_N_to_N. now apply N.mod_small. Qed.

Lemma be_value_app l b : be_value (l ++ [b]) = (be_value l * 256 + Byte.to_N b)%N.
Proof. unfold be_value. now rewrite fold_left_app. Qed.

Lemma be_aux_value f n : (n < 256 ^ N.of_nat f)%N -> be_value (be_aux f n) = n.
Proof.
  revert n; induction f as [|f IH]; intros n Hn; simpl.
  - simpl in Hn. unfold be_value; simpl. lia.
  - destruct (N.eqb_spec n 0) as [->|Hn0]; [reflexivity|].
    rewrite be_value_app, IH, byte_of_N_to_N.
    + pose proof (N.div_mod n 256 ltac:(lia)). lia.
    + apply N.Div0.div_lt_upper_bound.
      rewrite Nat2N.inj_succ, N.pow_succ_r' in Hn. lia.
Qed.

Lemma be_fuel_ok n : (n < 256 ^ N.of_nat (S (N.to_nat (N.log2 n))))%N.
Proof.
  rewrite Nat2N.inj_succ, N2Nat.id.
  destruct (N.eq_dec n 0) as [->|Hn].
  - assert (256 ^ N.succ (N.log2 0) <> 0)%N by (apply N.pow_nonzero; lia). lia.
  - apply N.lt_le_trans with (2 ^ N.succ (N.log2 n))%N.
    + apply N.log2_spec; lia.
    + apply N.pow_le_mono_l; lia.
Qed.

Lemma be_bytes_value n : be_value (be_bytes n) = n.
Proof. apply be_aux_value, be_fuel_ok. Qed.

Lemma be_aux_zero f : be_aux f 0 = [].
Proof. destruct f; reflexivity. Qed.

Lemma be_aux_nil f n : (n < 256 ^ N.of_nat f)%N -> be_aux f n = [] -> n = 0%N.
Proof.
  intros Hf E. rewrite <- (be_aux_value f n Hf), E. reflexivity.
Qed.

Lemma be_aux_head f n b l :
  (n < 256 ^ N.of_nat f)%N -> be_aux f n = b :: l -> Byte.to_N b <> 0%N.
Proof.
  revert n b l; induction f as [|f IH]; intros n b l Hf E; simpl in E.
  - discriminate.
  - destruct (N.eqb_spec n 0) as [->|Hn0]; [discriminate|].
    assert (Hq : (n / 256 < 256 ^ N.of_nat f)%N).
    { apply N.Div0.div_lt_upper_bound.
      rewrite Nat2N.inj_succ, N.pow_succ_r' in Hf. lia. }
    destruct (be_aux f (n / 256)) as [|b' l'] eqn:E'.
    + apply be_aux_nil in E'; [|exact Hq].
      simpl in E. injection E as <- <-.
      rewrite byte_of_N_to_N.
      pose proof (N.div_mod n 256 ltac:(lia)). lia.
    + simpl in E. injection E as <- _. eapply IH; eauto.
Qed.

Lemma be_bytes_no_leading_zero n : leading_zero (be_bytes n) = false.
Proof.
  unfold leading_zero. destruct (be_bytes n) as [|b l] eqn:E; [reflexivity|].
  apply N.eqb_neq. eapply be_aux_head; [apply be_fuel_ok|exact E].
Qed.

Lemma be_aux_length f n k : (n < 256 ^ N.of_nat k)%N -> length (be_aux f n) <= k.
Proof.
  revert n k; induction f as [|f IH]; intros n k Hk; simpl; [lia|].
  destruct (N.eqb_spec n 0) as [->|Hn0]; [simpl; lia|].
  destruct k as [|k].
  - simpl in Hk. lia.
  - rewrite length_app; simpl.
    enough (length (be_aux f (n / 256)) <= k) by lia.
    apply IH. apply N.Div0.div_lt_upper_bound.
    rewrite Nat2N.inj_succ, N.pow_succ_r' in Hk. lia.
Qed.

Lemma be_bytes_length_64 n : (n < two64)%N -> length (be_bytes n) <= 8.
Proof. intros H. apply be_aux_length. exact H. Qed.

Lemma be_bytes_nil_iff n : be_bytes n = [] <-> n = 0%N.
Proof.
  split.
  - intros E. rewrite <- (be_bytes_value n), E. reflexivity.
  - intros ->. reflexivity.
Qed.

Lemma be_bytes_small n : (0 < n < 256)%N -> be_bytes n = [byte_of_N n].
Proof.
  intros H. unfold be_bytes.
  remember (N.to_nat (N.log2 n)) as k eqn:Ek. simpl.
  destruct (N.eqb_spec n 0) as [->|_]; [lia|].
  rewrite N.div_small by lia. now rewrite be_aux_zero.
Qed.

Lemma firstn_length_app {A} (l1 l2 : list A) : firstn (length l1) (l1 ++ l2) = l1.
Proof. induction l1; simpl; f_equal; auto. Qed.

Lemma skipn_length_app {A} (l1 l2 : list A) : skipn (length l1) (l1 ++ l2) = l2.
Proof. induction l1; simpl; auto. Qed.

(* ------------------------------------------------------------------ *)
(** ** The rlp decoder reads back what the encoder writes *)

Lemma take_content_ok k payload rest :
  (k = Rlp.KString -> forall x, payload = [x] -> (128 <= Byte.to_N x)%N) ->
  Rlp.take_content k (N.of_nat (length payload)) (payload ++ rest) = Ok (k, payload, rest).
Proof.
  intros Hx. unfold Rlp.take_content.
  rewrite length_app, Nat2N.id, firstn_length_app, skipn_length_app.
  destruct (N.ltb_spec (N.of_nat (length payload + length rest)) (N.of_nat (length payload)));
    [lia|].
  destruct k; [|reflexivity].
  destruct payload as [|x [|y l]]; try reflexivity.
  specialize (Hx eq_refl x eq_refl).
  destruct (N.ltb_spec (Byte.to_N x) 128); [lia|reflexivity].
Qed.

Lemma read_size_ok n rest :
  (56 <= n < two64)%N ->
  Rlp.read_size (length (be_bytes n)) (be_bytes n ++ rest) = Ok (n, rest).
Proof.
  intros Hn. unfold Rlp.read_size.
  rewrite length_app, firstn_length_app, skipn_length_app.
  destruct (Nat.ltb_spec (length (be_bytes n) + length rest) (length (be_bytes n))); [lia|].
  rewrite be_bytes_no_leading_zero, be_bytes_value.
  destruct (N.ltb_spec n 56); [lia|reflexivity].
Qed.

Lemma enc_header_split k payload rest :
  (N.of_nat (length payload) < two64)%N ->
  (k = Rlp.KString -> forall x, payload = [x] -> (128 <= Byte.to_N x)%N) ->
  Rlp.split (Rlp.enc_header (Rlp.kind_offset k) (length payload) ++ payload ++ rest)
  = Ok (k, payload, rest).
Proof.
  intros Hlen Hx. unfold Rlp.enc_header.
  destruct (N.ltb_spec (N.of_nat (length payload)) 56) as [Hs|Hl].
  - assert (Ht : Byte.to_N (byte_of_N (Rlp.kind_offset k + N.of_nat (length payload)))
                 = (Rlp.kind_offset k + N.of_nat (length payload))%N).
    { apply byte_of_N_small. destruct k; cbn [Rlp.kind_offset]; lia. }
    simpl app. unfold Rlp.split. rewrite Ht.
    destruct k; cbn [Rlp.kind_offset].
    + destruct (N.ltb_spec (128 + N.of_nat (length payload)) 128); [lia|].
      destruct (N.ltb_spec (128 + N.of_nat (length payload)) 184); [|lia].
      replace (128 + N.of_nat (length payload) - 128)%N with (N.of_nat (length payload)) by lia.
      now apply take_content_ok.
    + destruct (N.ltb_spec (192 + N.of_nat (length payload)) 128); [lia|].
      destruct (N.ltb_spec (192 + N.of_nat (length payload)) 184); [lia|].
      destruct (N.ltb_spec (192 + N.of_nat (length payload)) 192); [lia|].
      destruct (N.ltb_spec (192 + N.of_nat (length payload)) 248); [|lia].
      replace (192 + N.of_nat (length payload) - 192)%N with (N.of_nat (length payload)) by lia.
      now apply take_content_ok.
  - set (lb := be_bytes (N.of_nat (length payload))).
    assert (Hm8 : length lb <= 8) by (apply be_bytes_length_64; exact Hlen).
    assert (Hm1 : 1 <= length lb).
    { destruct lb as [|b l] eqn:E; simpl; [|lia].
      apply be_bytes_nil_iff in E. lia. }
    assert (Ht : Byte.to_N (byte_of_N (Rlp.kind_offset k + 55 + N.of_nat (length lb)))
                 = (Rlp.kind_offset k + 55 + N.of_nat (length lb))%N).
    { apply byte_of_N_small. destruct k; cbn [Rlp.kind_offset]; lia. }
    simpl app. unfold Rlp.split. rewrite Ht.
    assert (Hrs : Rlp.read_size (length lb) (lb ++ payload ++ rest)
                  = Ok (N.of_nat (length payload), payload ++ rest))
      by (apply read_size_ok; lia).
    destruct k; cbn [Rlp.kind_offset].
    + destruct (N.ltb_spec (128 + 55 + N.of_nat (length lb)) 128); [lia|].
      destruct (N.ltb_spec (128 + 55 + N.of_nat (length lb)) 184); [lia|].
      destruct (N.ltb_spec (128 + 55 + N.of_nat (length lb)) 192); [|lia].
      replace (N.to_nat (128 + 55 + N.of_nat (length lb) - 183)) with (length lb) by lia.
      rewrite Hrs. now apply take_content_ok.
    + destruct (N.ltb_spec (192 + 55 + N.of_nat (length lb)) 128); [lia|].
      destruct (N.ltb_spec (192 + 55 + N.of_nat (length lb)) 184); [lia|].
      destruct (N.ltb_spec (192 + 55 + N.of_nat (length lb)) 192); [lia|].
      destruct (N.ltb_spec (192 + 55 + N.of_nat (length lb)) 248); [lia|].
      replace (N.to_nat (192 + 55 + N.of_nat (length lb) - 247)) with (length lb) by lia.
      rewrite Hrs. now apply take_content_ok.
Qed.

Lemma split_enc_string bs rest :
  (N.of_nat (length bs) < two64)%N ->
  Rlp.split (Rlp.enc_string bs ++ rest) = Ok (Rlp.KString, bs, rest).
Proof.
  intros H. unfold Rlp.enc_string.
  destruct bs as [|x [|y l]].
  - exact (enc_header_split Rlp.KString [] rest H (fun _ _ E => ltac:(discriminate E))).
  - destruct (N.ltb_spec (Byte.to_N x) 128) as [Hx|Hx].
    + simpl. destruct (N.ltb_spec (Byte.to_N x) 128); [reflexivity|lia].
    + rewrite <- app_assoc.
      refine (enc_header_split Rlp.KString [x] rest H _).
      intros _ z E. injection E as <-. exact Hx.
  - rewrite <- app_assoc.
    refine (enc_header_split Rlp.KString (x :: y :: l) rest H _).
    intros _ z E. discriminate E.
Qed.

Lemma split_enc_list p rest :
  (N.of_nat (length p) < two64)%N ->
  Rlp.split (Rlp.enc_list p ++ rest) = Ok (Rlp.KList, p, rest).
Proof.
  intros H. unfold Rlp.enc_list. rewrite <- app_assoc.
  exact (enc_header_split Rlp.KList p rest H (fun E => ltac:(discriminate E))).
Qed.

Lemma enc_string_length bs : length bs <= length (Rlp.enc_string bs).
Proof.
  unfold Rlp.enc_string.
  destruct bs as [|x [|y l]]; try (rewrite length_app; lia).
  destruct (N.ltb (Byte.to_N x) 128); [simpl; lia|rewrite length_app; lia].
Qed.

Lemma enc_list_length p : length p <= length (Rlp.enc_list p).
Proof. unfold Rlp.enc_list. rewrite length_app. lia. Qed.

Lemma enc_string_nonempty bs : Rlp.enc_string bs <> [].
Proof.
  unfold Rlp.enc_string, Rlp.enc_header.
  destruct bs as [|x [|y l]]; [| destruct (N.ltb (Byte.to_N x) 128) |];
    try destruct (N.ltb _ 56); discriminate.
Qed.

Lemma enc_list_nonempty p : Rlp.enc_list p <> [].
Proof. unfold Rlp.enc_list, Rlp.enc_header. destruct (N.ltb _ 56); discriminate. Qed.

Lemma field_step {T A} (d : Rlp.Kind -> bytes -> result A Rlp.error) set (t : T) c k v rest a :
  Rlp.split c = Ok (k, v, rest) -> d k v = Ok a ->
  Rlp.field d set t c = (set t a, Ok rest).
Proof.
  intros Hs Hd. unfold Rlp.field. destruct c as [|b c]; [discriminate|].
  rewrite Hs, Hd. reflexivity.
Qed.

Lemma then_field_step {T} (f g : Rlp.fieldDec T) t c t1 c' :
  f t c = (t1, Ok c') -> Rlp.then_field f g t c = g t1 c'.
Proof. intros H. unfold Rlp.then_field. now rewrite H. Qed.

Lemma decode_struct_step {T} (fields : Rlp.fieldDec T) t bs c rest t1 :
  Rlp.split bs = Ok (Rlp.KList, c, rest) -> fields t c = (t1, Ok []) ->
  Rlp.decode_struct fields t bs = (t1, Ok rest).
Proof. intros Hs Hf. unfold Rlp.decode_struct. rewrite Hs, Hf. reflexivity. Qed.

Lemma dec_uint64_be n : (n < two64)%N -> Rlp.dec_uint64 Rlp.KString (be_bytes n) = Ok n.
Proof.
  intros H. unfold Rlp.dec_uint64. pose proof (be_bytes_length_64 n H).
  destruct (Nat.ltb_spec 8 (length (be_bytes n))); [lia|].
  rewrite be_bytes_no_leading_zero, be_bytes_value. reflexivity.
Qed.

Lemma dec_bigint_be n : Rlp.dec_bigint Rlp.KString (be_bytes n) = Ok n.
Proof.
  unfold Rlp.dec_bigint. rewrite be_bytes_no_leading_zero, be_bytes_value. reflexivity.
Qed.

Lemma dec_hash_32 h : length h = 32 -> Rlp.dec_hash Rlp.KString h = Ok h.
Proof.
  intros H. unfold Rlp.dec_hash. rewrite H. reflexivity.
Qed.

(* ------------------------------------------------------------------ *)
(** ** Block construction *)

Lemma Statements_rlps_map sts : Blk.Statements_rlps sts = map Stmt.EncodeRLP sts.
Proof.
  unfold Blk.Statements_rlps, Stmt.GetRlp.
  induction sts as [|s sts IH] using rev_ind; [reflexivity|].
  rewrite length_app, seq_app, !map_app. simpl.
  rewrite app_nth2 by lia. rewrite Nat.sub_diag. simpl. f_equal.
  rewrite <- IH. apply map_ext_in. intros i Hi. apply in_seq in Hi.
  rewrite app_nth1 by lia. reflexivity.
Qed.

Lemma u64_succ n : u64 (Z.of_N n + 1) = ((n + 1) mod two64)%N.
Proof.
  unfold u64, two64. change 1%Z with (Z.of_N 1). rewrite <- (N2Z.inj_add n 1).
  change (Z.pos 18446744073709551616) with (Z.of_N 18446744073709551616).
  rewrite <- N2Z.inj_mod. apply N2Z.id.
Qed.

Section BlockClaims.
Context {C : Crypto}.

Lemma HashOf_snd b : fst (Blk.HashOf (snd (Blk.HashOf b))) = fst (Blk.HashOf b).
Proof. unfold Blk.HashOf. destruct (Blk.hash b) eqn:E; simpl; rewrite ?E; reflexivity. Qed.

(** C3: the successor of [b1] made by [CreateSuccessor] links to [b1]'s
    hash, has [b1]'s number plus one (as a uint64), the given time, the
    statement root of [stmts] (the empty-root constant for no statements,
    else [DeriveSha] over the statements' encodings in order), carries
    [stmts], and is signed over its own unsigned header; [b1]'s hash is
    unchanged by the call. *)
Theorem CreateSuccessor_spec (b1 : Blk.Block) stmts key now :
  let (b2, b1') := Blk.CreateSuccessor b1 stmts key now in
  Blk.PrevHash (Blk.header b2) = fst (Blk.HashOf b1) /\
  Blk.Number (Blk.header b2) = ((Blk.Number (Blk.header b1) + 1) mod two64)%N /\
  Blk.Time (Blk.header b2) = u64 now /\
  Blk.StmtsRoot (Blk.header b2) =
    match stmts with [] => EmptyRootHash | _ :: _ => DeriveSha (map Stmt.EncodeRLP stmts) end /\
  Blk.statements b2 = stmts /\
  Blk.Signature (Blk.header b2) =
    signature_of (Keccak256 (Blk.Header_rlp (Blk.unsignedData (Blk.header b2)))) key /\
  fst (Blk.HashOf b1') = fst (Blk.HashOf b1).
Proof.
  unfold Blk.CreateSuccessor.
  destruct (Blk.HashOf b1) as [prev b1'] eqn:Eh. simpl.
  rewrite u64_succ.
  repeat split; try reflexivity.
  - unfold Blk.stmts_root. destruct stmts; [reflexivity|].
    now rewrite Statements_rlps_map.
  - pose proof (HashOf_snd b1) as L. rewrite Eh in L. exact L.
Qed.

End BlockClaims.

Section SignedClaims.
Context {C : Crypto}.

(** C10: [Block.Hash] caches its first result: hashing a block, signing it
    with [Sign], and hashing it again gives the first hash, the hash of the
    header before the signature was set, although the header now carries
    the new signature. *)
Theorem Hash_cache_survives_Sign (h : Signed.Header) (sz : option N) (key : N) :
  let b := {| Signed.header := h; Signed.hash := None; Signed.size := sz |} in
  let (h1, b1) := Signed.HashOf b in
  let b2 := Signed.Sign b1 key in
  let (h2, _) := Signed.HashOf b2 in
  h1 = Signed.header_Hash h /\ h2 = h1 /\
  Signed.Signature (Signed.header b2) =
    signature_of (Keccak256 (Signed.unsignedBlock_rlp b1)) key.
Proof. simpl. repeat split. Qed.

End SignedClaims.

(* ------------------------------------------------------------------ *)
(** ** Chain: the trie lock *)

(** C2: [UnlockTrie] does nothing. On a chain made by [NewChain] on an
    empty store, [LockAndGetTrie] succeeds, [UnlockTrie] leaves the state
    [locked], and the next [LockAndGetTrie] fails with
    [ErrTrieIsAlreadyLocked]. *)
Theorem UnlockTrie_keeps_lock :
  match @Chain.NewChain ToyCrypto (fun _ => None) 1 0 with
  | (db, Ok (Some c)) =>
      let (c1, r1) := @Chain.LockAndGetTrie ToyCrypto db c in
      let c2 := Chain.UnlockTrie c1 in
      let (c3, r2) := @Chain.LockAndGetTrie ToyCrypto db c2 in
      r1 = Ok zeroHash /\ c2 = c1 /\ Chain.trieStatus c2 = Some Chain.locked /\
      r2 = Err Chain.ErrTrieIsAlreadyLocked
  | _ => False
  end.
Proof. vm_compute. repeat split. Qed.

(** C1: on a chain made by [NewChain] over [store_with_block0], the trie
    state is [unlocked], yet [LockAndGetTrie] fails with
    [ErrTrieIsAlreadyLocked] (the trie root cannot be opened), and leaves
    the state [locked], so that every later call fails too. *)
Theorem LockAndGetTrie_unlocked_fails :
  match @Chain.NewChain ToyCrypto store_with_block0 1 0 with
  | (db, Ok (Some c)) =>
      let (c1, r1) := @Chain.LockAndGetTrie ToyCrypto db c in
      Chain.trieStatus c = Some Chain.unlocked /\
      r1 = Err Chain.ErrTrieIsAlreadyLocked /\
      Chain.trieStatus c1 = Some Chain.locked
  | _ => False
  end.
Proof. vm_compute. repeat split. Qed.

(* ------------------------------------------------------------------ *)
(** ** Statement decoding *)

(** C8: decoding into an existing statement a list whose first element is
    a string and which then ends fails with [ErrTooFewElements], and the
    statement keeps the decoded key: [NewStatement("foo", "bar")] decoded
    from [C4 83 'b' 'a' 'z'] has key "baz" after the error. *)
Theorem Statement_DecodeRLP_partial :
  let st := Stmt.NewStatement (list_byte_of_string "foo") (list_byte_of_string "bar") in
  let (st', r) := Stmt.DecodeRLP st [xc4; x83; x62; x61; x7a] in
  r = Err Rlp.ErrTooFewElements /\
  Stmt.KeyOf st' = list_byte_of_string "baz" /\
  Stmt.KeyOf st = list_byte_of_string "foo".
Proof. vm_compute. repeat split. Qed.

(* ------------------------------------------------------------------ *)
(** ** The cache of committed tries *)

Module TrieDBFacts.
Import TrieDB.

Lemma pushTrie_eq p t :
  pushTrie p t = if maxPastTries <=? length p then tl p ++ [t] else p ++ [t].
Proof.
  unfold pushTrie. destruct (maxPastTries <=? length p); [|reflexivity].
  now rewrite removelast_last.
Qed.

Lemma pushTrie_length p t : length p <= maxPastTries -> length (pushTrie p t) <= maxPastTries.
Proof.
  rewrite pushTrie_eq. unfold maxPastTries. intros H.
  destruct (Nat.leb_spec 12 (length p)).
  - destruct p; simpl in *; rewrite ?length_app; simpl; lia.
  - rewrite length_app; simpl; lia.
Qed.

Lemma lastn_cons {A} k (x : A) l : k <= length l -> lastn k (x :: l) = lastn k l.
Proof.
  unfold lastn. simpl length. intros H.
  replace (S (length l) - k) with (S (length l - k)) by lia. reflexivity.
Qed.

Lemma lastn_length {A} k (l : list A) : length (lastn k l) <= k.
Proof. unfold lastn. rewrite length_skipn. lia. Qed.

Lemma commits_lastn p ts :
  length p <= maxPastTries -> commits p ts = lastn maxPastTries (p ++ ts).
Proof.
  revert p. induction ts as [|t ts IH]; intros p Hp; simpl.
  - rewrite app_nil_r. unfold lastn. replace (length p - maxPastTries) with 0 by lia.
    reflexivity.
  - rewrite IH by (apply pushTrie_length; exact Hp).
    rewrite pushTrie_eq. unfold maxPastTries in *.
    destruct (Nat.leb_spec 12 (length p)).
    + destruct p as [|x p]; simpl in *; [lia|].
      rewrite <- app_assoc. simpl. rewrite lastn_cons; [reflexivity|].
      rewrite length_app. simpl. lia.
    + rewrite <- app_assoc. reflexivity.
Qed.

Lemma commits_app p a b : commits p (a ++ b) = commits (commits p a) b.
Proof. revert p. induction a; simpl; auto. Qed.

Lemma scan_back_some hp r l t : scan_back hp r l = Some t -> In t l /\ hp t = r.
Proof.
  induction l as [|x l IH]; simpl; [discriminate|].
  destruct (list_eq_dec Byte.byte_eq_dec (hp x) r).
  - intros [= <-]. auto.
  - intros H. destruct (IH H). auto.
Qed.

Lemma scan_back_none hp r l : (forall t, In t l -> hp t <> r) -> scan_back hp r l = None.
Proof.
  induction l as [|x l IH]; simpl; intros H; [reflexivity|].
  destruct (list_eq_dec Byte.byte_eq_dec (hp x) r).
  - exfalso. exact (H x (or_introl eq_refl) e).
  - apply IH. auto.
Qed.

Lemma scan_back_found hp r l t : In t l -> hp t = r -> exists t', scan_back hp r l = Some t'.
Proof.
  induction l as [|x l IH]; simpl; [tauto|].
  intros Hin Ht. destruct (list_eq_dec Byte.byte_eq_dec (hp x) r); [eauto|].
  destruct Hin as [->|Hin]; [contradiction|auto].
Qed.

Lemma NoDup_map_inj {A B} (f : A -> B) l x y :
  NoDup (map f l) -> In x l -> In y l -> f x = f y -> x = y.
Proof.
  induction l as [|a l IH]; simpl; [tauto|].
  intros Hd Hx Hy E. inversion Hd as [|? ? Hn Hd']; subst.
  destruct Hx as [<-|Hx], Hy as [<-|Hy]; auto.
  - exfalso. apply Hn. rewrite E. now apply in_map.
  - exfalso. apply Hn. rewrite <- E. now apply in_map.
Qed.

End TrieDBFacts.

Section TrieDBClaims.
Context {C : Crypto}.

(** C5: starting from an empty cache, [pastTries] never holds more than 12
    tries. After any history [us] followed by the commits of 13 tries
    [ts] with pairwise distinct roots, the cache is the last 12 of them (the
    first was dropped, oldest first), [OpenTrie] on the root of the first
    finds it in no cached trie and opens it from the backing store, and
    [OpenTrie] on the root of each of the other twelve returns that cached
    trie. *)
Theorem pastTries_fifo (hp : TrieDB.heap) (db : Database) (us ts : list TrieDB.loc)
    (H13 : length ts = 13) (Hdistinct : NoDup (map hp ts)) :
  (forall vs, length (TrieDB.commits [] vs) <= TrieDB.maxPastTries) /\
  TrieDB.commits [] (us ++ ts) = tl ts /\
  TrieDB.OpenTrie hp db (TrieDB.commits [] (us ++ ts)) (hp (nth 0 ts 0)) =
    TrieDB.FromStore (Trie.New (hp (nth 0 ts 0)) db) /\
  (forall i, 1 <= i < 13 ->
     TrieDB.OpenTrie hp db (TrieDB.commits [] (us ++ ts)) (hp (nth i ts 0)) =
       TrieDB.FromCache (nth i ts 0)).
Proof.
  assert (Hc : TrieDB.commits [] (us ++ ts) = tl ts).
  { rewrite TrieDBFacts.commits_lastn by (simpl; unfold TrieDB.maxPastTries; lia).
    unfold lastn, TrieDB.maxPastTries. simpl.
    rewrite length_app, H13.
    replace (length us + 13 - 12) with (length us + 1) by lia.
    rewrite skipn_app. rewrite skipn_all2 by lia. simpl.
    replace (length us + 1 - length us) with 1 by lia.
    destruct ts; reflexivity. }
  destruct ts as [|t0 rest]; [discriminate|].
  split; [|split; [exact Hc|split]].
  - intros vs. rewrite TrieDBFacts.commits_lastn by (simpl; unfold TrieDB.maxPastTries; lia).
    apply TrieDBFacts.lastn_length.
  - rewrite Hc. unfold TrieDB.OpenTrie. simpl.
    rewrite TrieDBFacts.scan_back_none; [reflexivity|].
    intros t Ht E. apply in_rev in Ht.
    simpl in Hdistinct. inversion Hdistinct as [|? ? Hn]; subst.
    apply Hn. rewrite <- E. now apply in_map.
  - intros i Hi. rewrite Hc. unfold TrieDB.OpenTrie. simpl.
    destruct i as [|i]; [lia|]. simpl.
    assert (Hin : In (nth i rest 0) rest) by (apply nth_In; simpl in H13; lia).
    destruct (TrieDBFacts.scan_back_found hp (hp (nth i rest 0)) (rev rest) (nth i rest 0))
      as [t' Ht']; [exact (proj1 (in_rev _ _) Hin)|reflexivity|].
    rewrite Ht'. apply TrieDBFacts.scan_back_some in Ht' as [Hin' E].
    apply in_rev in Hin'. f_equal.
    simpl in Hdistinct. inversion Hdistinct; subst.
    eapply TrieDBFacts.NoDup_map_inj; eauto.
Qed.

End TrieDBClaims.

Lemma pastTries_fifo_witness :
  length (seq 0 13) = 13 /\ NoDup (map heap13 (seq 0 13)) /\
  ((forall vs, length (TrieDB.commits [] vs) <= TrieDB.maxPastTries) /\
   TrieDB.commits [] ([] ++ seq 0 13) = tl (seq 0 13) /\
   @TrieDB.OpenTrie ToyCrypto heap13 (fun _ => None) (TrieDB.commits [] ([] ++ seq 0 13))
     (heap13 (nth 0 (seq 0 13) 0)) =
     TrieDB.FromStore (@Trie.New ToyCrypto (heap13 (nth 0 (seq 0 13) 0)) (fun _ => None)) /\
   (forall i, 1 <= i < 13 ->
      @TrieDB.OpenTrie ToyCrypto heap13 (fun _ => None) (TrieDB.commits [] ([] ++ seq 0 13))
        (heap13 (nth i (seq 0 13) 0)) = TrieDB.FromCache (nth i (seq 0 13) 0))).
Proof.
  assert (Hd : NoDup (map heap13 (seq 0 13))).
  { vm_compute. repeat constructor; simpl; intros H;
      repeat (destruct H as [H|H]; [discriminate H|]); exact H. }
  split; [reflexivity|split; [exact Hd|]].
  exact (@pastTries_fifo ToyCrypto heap13 (fun _ => None) [] (seq 0 13) eq_refl Hd).
Defined.

(* ------------------------------------------------------------------ *)
(** ** Statement roots *)

Module TrieFacts.
Import Trie.

Lemma insert_branch n k0 krest v :
  n = NilNode \/ is_branch n -> is_branch (insert n (k0 :: krest) v).
Proof.
  intros [->|Hn]; simpl; [exact I|].
  destruct n; simpl in *; try contradiction; [|exact I].
  repeat match goal with |- context [if ?c then _ else _] => destruct c end; exact I.
Qed.

Lemma keybytesToHex_cons b : exists k0 krest, keybytesToHex b = k0 :: krest.
Proof.
  unfold keybytesToHex. destruct (flat_map _ b) as [|x l]; simpl; eauto.
Qed.

Lemma DeriveSha_aux_branch i root items :
  (root = NilNode /\ items <> [] \/ is_branch root) ->
  Forall (fun v => v <> []) items ->
  is_branch (DeriveSha_aux i root items).
Proof.
  revert i root. induction items as [|v items IH]; intros i root Hr Hv; simpl.
  - destruct Hr as [[_ H]|H]; [contradiction|exact H].
  - inversion Hv as [|? ? Hv0 Hvs]; subst.
    apply IH; [right|exact Hvs].
    unfold Update. destruct v as [|b v]; [contradiction|].
    destruct (keybytesToHex_cons (Rlp.enc_uint (N.of_nat i))) as (k0 & krest & ->).
    apply insert_branch. destruct Hr as [[-> _]|H]; auto.
Qed.

End TrieFacts.

Lemma enc_string_nil : Rlp.enc_string [] = [x80].
Proof. reflexivity. Qed.

Lemma enc_list_not_x80 p : Rlp.enc_list p <> [x80].
Proof.
  unfold Rlp.enc_list, Rlp.enc_header.
  destruct (N.of_nat (length p) <? 56)%N eqn:E.
  - destruct p as [|b p]; simpl; [discriminate|].
    intros H. inversion H.
  - destruct (be_bytes (N.of_nat (length p))) as [|b lb] eqn:Eb.
    + apply be_bytes_nil_iff in Eb. apply N.ltb_ge in E. lia.
    + simpl. intros H. inversion H.
Qed.

Section RootClaims.
Context {C : Crypto}.

Lemma collapsed_branch n : is_branch n -> exists p, Trie.collapsed_rlp n = Rlp.enc_list p.
Proof. destruct n; simpl; try contradiction; intros _; eexists; reflexivity. Qed.

Lemma TrieHash_branch n : is_branch n -> Trie.TrieHash n = Keccak256 (Trie.collapsed_rlp n).
Proof. destruct n; simpl; tauto. Qed.

(** C9: a [blockData] made by [NewBlock] from no statements has the
    empty-root constant as its statement root; from a non-empty list, the
    root is [DeriveSha] over the statements' encodings in order, and it
    differs from the empty-root constant unless keccak256 has a collision
    (the trie's root node is a short or full node, encoded as a list, while
    the empty root hashes the empty string). *)
Theorem NewBlock_stmts_root (key : N) (now : Z) :
  Data.Statements (Data.data (Data.NewBlock [] key now)) = EmptyRootHash /\
  forall s rest,
    let r := Data.Statements (Data.data (Data.NewBlock (s :: rest) key now)) in
    r = DeriveSha (map Stmt.EncodeRLP (s :: rest)) /\
    (r <> EmptyRootHash \/ exists x y, x <> y /\ Keccak256 x = Keccak256 y).
Proof.
  split; [reflexivity|]. intros s rest. simpl.
  rewrite Statements_rlps_map. split; [reflexivity|].
  unfold EmptyRootHash, DeriveSha.
  assert (Hb : is_branch (DeriveSha_aux 0 Trie.NilNode (map Stmt.EncodeRLP (s :: rest)))).
  { apply TrieFacts.DeriveSha_aux_branch.
    - left. split; [reflexivity|discriminate].
    - apply Forall_forall. intros v Hv. apply in_map_iff in Hv as (x & <- & _).
      apply enc_list_nonempty. }
  rewrite (TrieHash_branch _ Hb).
  destruct (collapsed_branch _ Hb) as [p ->].
  unfold Trie.TrieHash, Trie.emptyRoot. rewrite enc_string_nil.
  destruct (list_eq_dec Byte.byte_eq_dec (Keccak256 (Rlp.enc_list p)) (Keccak256 [x80])) as [Eq|Ne].
  - right. exists (Rlp.enc_list p), [x80]. split; [apply enc_list_not_x80|exact Eq].
  - left. exact Ne.
Qed.

End RootClaims.

(* ------------------------------------------------------------------ *)
(** ** The list encoding is injective *)

Lemma to_N_lt b : (Byte.to_N b < 256)%N.
Proof. destruct b; vm_compute; reflexivity. Qed.

Lemma be_value_lt l : (be_value l < 256 ^ N.of_nat (length l))%N.
Proof.
  induction l as [|b l IH] using rev_ind; [reflexivity|].
  rewrite be_value_app, length_app, Nat2N.inj_add, N.pow_add_r. simpl.
  pose proof (to_N_lt b). nia.
Qed.

Lemma be_bytes_length_le n m : (n <= m)%N -> length (be_bytes n) <= length (be_bytes m).
Proof.
  intros H. unfold be_bytes at 1. apply be_aux_length.
  pose proof (be_value_lt (be_bytes m)) as L. rewrite be_bytes_value in L. lia.
Qed.

Lemma enc_header_length_mono off n m :
  n <= m -> length (Rlp.enc_header off n) <= length (Rlp.enc_header off m).
Proof.
  intros H. unfold Rlp.enc_header.
  destruct (N.ltb_spec (N.of_nat n) 56), (N.ltb_spec (N.of_nat m) 56); simpl; try lia.
  apply le_n_S, be_bytes_length_le. lia.
Qed.

Lemma enc_list_inj p1 p2 : Rlp.enc_list p1 = Rlp.enc_list p2 -> p1 = p2.
Proof.
  intros E.
  assert (L : length p1 = length p2).
  { pose proof (f_equal (@length _) E) as L. unfold Rlp.enc_list in L.
    rewrite !length_app in L.
    destruct (Nat.lt_total (length p1) (length p2)) as [Lt|[Eq|Gt]]; auto.
    - pose proof (enc_header_length_mono 192 (length p1) (length p2)). lia.
    - pose proof (enc_header_length_mono 192 (length p2) (length p1)). lia. }
  unfold Rlp.enc_list in E. rewrite L in E. now apply app_inv_head in E.
Qed.

Lemma enc_string_x80 sig : Rlp.enc_string sig = [x80] -> sig = [].
Proof.
  destruct sig as [|b [|b' sig]]; auto; intros E.
  - simpl in E. destruct (Byte.to_N b <? 128)%N eqn:Eb.
    + injection E as ->. discriminate.
    + discriminate.
  - apply (f_equal (@length _)) in E. unfold Rlp.enc_string in E.
    rewrite length_app in E. simpl in E. lia.
Qed.

(* ------------------------------------------------------------------ *)
(** ** Signing digest and block hash *)

Section DataClaims.
Context {C : Crypto}.

(** C7: [blockData.sign] stores the signature of the keccak256 digest of
    the encoding with the signature nil, while [blockData.hash] is the
    keccak256 of the encoding with the signature set. Once signed with a
    non-empty signature, the two encodings differ, so the signing digest
    and the hash differ unless keccak256 has a collision; the signing digest
    of the signed data is the one that was signed. *)
Theorem sign_digest_differs_from_hash (d : Data.blockData) (key : N)
    (Hne : Data.Signature (Data.sign d key) <> []) :
  let d' := Data.sign d key in
  Data.Signature d' = signature_of (Keccak256 (Data.rlp (Data.unsignedData d))) key /\
  Data.sign_digest d' = Data.sign_digest d /\
  Data.data_hash d' = Keccak256 (Data.rlp d') /\
  Data.rlp (Data.unsignedData d') <> Data.rlp d' /\
  (Data.sign_digest d' <> Data.data_hash d' \/ exists x y, x <> y /\ Keccak256 x = Keccak256 y).
Proof.
  intros d'.
  assert (Hrlp : Data.rlp (Data.unsignedData d') <> Data.rlp d').
  { intros E. unfold Data.rlp in E. apply enc_list_inj in E.
    unfold Data.payload in E. simpl in E.
    do 5 apply app_inv_head in E.
    apply Hne. symmetry in E. apply enc_string_x80 in E. exact E. }
  split; [reflexivity|]. split; [reflexivity|]. split; [reflexivity|].
  split; [exact Hrlp|].
  unfold Data.sign_digest, Data.data_hash.
  destruct (list_eq_dec Byte.byte_eq_dec (Keccak256 (Data.rlp (Data.unsignedData d')))
                                          (Keccak256 (Data.rlp d'))) as [Eq|Ne].
  - right. eauto.
  - left. exact Ne.
Qed.

End DataClaims.

Lemma sign_digest_differs_from_hash_witness :
  Data.Signature (@Data.sign ToyCrypto data0 1) <> [] /\
  (let d' := @Data.sign ToyCrypto data0 1 in
   Data.Signature d' =
     @signature_of ToyCrypto (@Keccak256 ToyCrypto (Data.rlp (Data.unsignedData data0))) 1 /\
   @Data.sign_digest ToyCrypto d' = @Data.sign_digest ToyCrypto data0 /\
   @Data.data_hash ToyCrypto d' = @Keccak256 ToyCrypto (Data.rlp d') /\
   Data.rlp (Data.unsignedData d') <> Data.rlp d' /\
   (@Data.sign_digest ToyCrypto d' <> @Data.data_hash ToyCrypto d' \/
    exists x y, x <> y /\ @Keccak256 ToyCrypto x = @Keccak256 ToyCrypto y)).
Proof.
  assert (H : Data.Signature (@Data.sign ToyCrypto data0 1) <> []) by (vm_compute; discriminate).
  split; [exact H|].
  exact (@sign_digest_differs_from_hash ToyCrypto data0 1 H).
Defined.

(* ------------------------------------------------------------------ *)
(** ** Big-endian values without leading zeros are unique *)

Lemma byte_of_N_of_to_N b : byte_of_N (Byte.to_N b) = b.
Proof. destruct b; reflexivity. Qed.

Lemma to_N_inj b1 b2 : Byte.to_N b1 = Byte.to_N b2 -> b1 = b2.
Proof. intros E. rewrite <- (byte_of_N_of_to_N b1), <- (byte_of_N_of_to_N b2), E. reflexivity. Qed.

Lemma be_value_cons b l :
  be_value (b :: l) = (Byte.to_N b * 256 ^ N.of_nat (length l) + be_value l)%N.
Proof.
  induction l as [|c l IH] using rev_ind; [unfold be_value; simpl; lia|].
  change (b :: l ++ [c]) with ((b :: l) ++ [c]).
  rewrite !be_value_app, IH, length_app, Nat2N.inj_add, N.pow_add_r. simpl. nia.
Qed.

Lemma be_value_lower l :
  leading_zero l = false -> l <> [] -> (256 ^ (N.of_nat (length l) - 1) <= be_value l)%N.
Proof.
  destruct l as [|b l]; [congruence|]. intros Hz _. simpl in Hz.
  rewrite be_value_cons. simpl length.
  replace (N.of_nat (S (length l)) - 1)%N with (N.of_nat (length l)) by lia.
  apply N.eqb_neq in Hz. nia.
Qed.

Lemma be_value_inj_len l1 l2 :
  length l1 = length l2 -> be_value l1 = be_value l2 -> l1 = l2.
Proof.
  revert l2. induction l1 as [|b1 l1 IH] using rev_ind; intros l2 L E.
  - destruct l2; [reflexivity|discriminate].
  - destruct l2 as [|x l2'] using rev_ind; [rewrite length_app in L; simpl in L; lia|].
    clear IHl2'. rewrite !length_app in L. simpl in L.
    rewrite !be_value_app in E.
    pose proof (to_N_lt b1). pose proof (to_N_lt x).
    assert (Eb : Byte.to_N b1 = Byte.to_N x) by lia.
    assert (Ev : be_value l1 = be_value l2') by lia.
    rewrite (IH l2') by (lia || exact Ev). now rewrite (to_N_inj _ _ Eb).
Qed.

Lemma be_length_of_value l1 l2 :
  leading_zero l1 = false -> leading_zero l2 = false ->
  be_value l1 = be_value l2 -> length l1 = length l2.
Proof.
  intros Z1 Z2 E.
  pose proof (be_value_lt l1). pose proof (be_value_lt l2).
  destruct (Nat.lt_total (length l1) (length l2)) as [Lt|[Eq|Gt]]; auto; exfalso.
  - assert (l2 <> []) by (destruct l2; simpl in *; [lia|discriminate]).
    pose proof (be_value_lower l2 Z2 H1).
    assert (256 ^ N.of_nat (length l1) <= 256 ^ (N.of_nat (length l2) - 1))%N
      by (apply N.pow_le_mono_r; lia).
    lia.
  - assert (l1 <> []) by (destruct l1; simpl in *; [lia|discriminate]).
    pose proof (be_value_lower l1 Z1 H1).
    assert (256 ^ N.of_nat (length l2) <= 256 ^ (N.of_nat (length l1) - 1))%N
      by (apply N.pow_le_mono_r; lia).
    lia.
Qed.

Lemma be_bytes_of_value l : leading_zero l = false -> be_bytes (be_value l) = l.
Proof.
  intros Z. apply be_value_inj_len; [|apply be_bytes_value].
  apply be_length_of_value; [apply be_bytes_no_leading_zero|exact Z|apply be_bytes_value].
Qed.

(* ------------------------------------------------------------------ *)
(** ** What the rlp decoder accepts is the canonical encoding of what it returns *)

Lemma take_content_inv k size r k' v rest :
  Rlp.take_content k size r = Ok (k', v, rest) ->
  k' = k /\ r = v ++ rest /\ N.of_nat (length v) = size /\
  (k = Rlp.KString -> forall x, v = [x] -> (128 <= Byte.to_N x)%N).
Proof.
  unfold Rlp.take_content.
  destruct (N.ltb_spec (N.of_nat (length r)) size) as [Hl|Hl]; [discriminate|].
  intros E.
  assert (Hgen : k' = k /\ v = firstn (N.to_nat size) r /\ rest = skipn (N.to_nat size) r /\
                 (k = Rlp.KString -> forall x, v = [x] -> (128 <= Byte.to_N x)%N)).
  { destruct k, (firstn (N.to_nat size) r) as [|x [|y l]] eqn:F;
      try (injection E as <- <- <-; repeat split; auto; intros; discriminate).
    destruct (N.ltb_spec (Byte.to_N x) 128); [discriminate|].
    injection E as <- <- <-. repeat split; auto. intros _ z Ez. injection Ez as <-. lia. }
  destruct Hgen as (-> & -> & -> & Hx). repeat split; auto.
  - symmetry. apply firstn_skipn.
  - rewrite firstn_length_le by lia. lia.
Qed.

Lemma read_size_inv n r size rest :
  Rlp.read_size n r = Ok (size, rest) ->
  r = be_bytes size ++ rest /\ length (be_bytes size) = n /\ (56 <= size)%N.
Proof.
  unfold Rlp.read_size.
  destruct (Nat.ltb_spec (length r) n); [discriminate|].
  destruct (leading_zero (firstn n r)) eqn:Z; [discriminate|].
  destruct (N.ltb_spec (be_value (firstn n r)) 56); [discriminate|].
  intros E. injection E as <- <-.
  rewrite (be_bytes_of_value _ Z). repeat split; [|rewrite firstn_length_le by lia; lia|lia].
  symmetry. apply firstn_skipn.
Qed.

Lemma enc_kind_header k v :
  (k = Rlp.KString -> forall x, v = [x] -> (128 <= Byte.to_N x)%N) ->
  enc_kind k v = Rlp.enc_header (Rlp.kind_offset k) (length v) ++ v.
Proof.
  intros Hx. destruct k; [|reflexivity]. simpl. unfold Rlp.enc_string.
  destruct v as [|x [|y l]]; try reflexivity.
  specialize (Hx eq_refl x eq_refl).
  destruct (N.ltb_spec (Byte.to_N x) 128); [lia|reflexivity].
Qed.

Lemma split_long_inv k t b rest size r' v rest' :
  Byte.to_N b = t -> (Rlp.kind_offset k + 56 <= t < Rlp.kind_offset k + 64)%N ->
  Rlp.read_size (N.to_nat (t - (Rlp.kind_offset k + 55))) rest = Ok (size, r') ->
  Rlp.take_content k size r' = Ok (k, v, rest') ->
  b :: rest = enc_kind k v ++ rest' /\ fits v.
Proof.
  intros Hb Ht Hr Hc.
  apply read_size_inv in Hr as (-> & Hlen & H56).
  apply take_content_inv in Hc as (_ & -> & Hsz & Hx).
  assert (Hfit : (size < two64)%N).
  { rewrite <- (be_bytes_value size). eapply N.lt_le_trans; [apply be_value_lt|].
    replace two64 with (256 ^ 8)%N by reflexivity. apply N.pow_le_mono_r; lia. }
  split; [|unfold fits; lia].
  rewrite enc_kind_header by exact Hx. unfold Rlp.enc_header.
  rewrite Hsz. destruct (N.ltb_spec size 56); [lia|].
  rewrite Hlen, N2Nat.id. cbn [app].
  replace (Rlp.kind_offset k + 55 + (t - (Rlp.kind_offset k + 55)))%N with t by lia.
  now rewrite <- ?app_assoc, <- Hb, byte_of_N_of_to_N.
Qed.

Lemma split_short_inv k t b rest v rest' :
  Byte.to_N b = t -> (Rlp.kind_offset k <= t < Rlp.kind_offset k + 56)%N ->
  Rlp.take_content k (t - Rlp.kind_offset k) rest = Ok (k, v, rest') ->
  b :: rest = enc_kind k v ++ rest' /\ fits v.
Proof.
  intros Hb Ht Hc.
  apply take_content_inv in Hc as (_ & -> & Hsz & Hx).
  split; [|unfold fits, two64; lia].
  rewrite enc_kind_header by exact Hx. unfold Rlp.enc_header.
  rewrite Hsz. destruct (N.ltb_spec (t - Rlp.kind_offset k) 56); [|lia].
  cbn [app]. replace (Rlp.kind_offset k + (t - Rlp.kind_offset k))%N with t by lia.
  now rewrite <- ?app_assoc, <- Hb, byte_of_N_of_to_N.
Qed.

Lemma split_inv bs k v rest :
  Rlp.split bs = Ok (k, v, rest) -> bs = enc_kind k v ++ rest /\ fits v.
Proof.
  destruct bs as [|b r]; [discriminate|]. unfold Rlp.split.
  pose proof (to_N_lt b) as Hb256.
  destruct (N.ltb_spec (Byte.to_N b) 128).
  { intros E. injection E as <- <- <-. split; [|unfold fits, two64; simpl; lia].
    simpl. unfold Rlp.enc_string. destruct (N.ltb_spec (Byte.to_N b) 128); [reflexivity|lia]. }
  destruct (N.ltb_spec (Byte.to_N b) 184).
  { intros E. pose proof E as E'. apply take_content_inv in E' as (-> & _).
    exact (split_short_inv Rlp.KString _ b r v rest eq_refl ltac:(simpl; lia) E). }
  destruct (N.ltb_spec (Byte.to_N b) 192).
  { destruct (Rlp.read_size _ r) as [[size r']|e] eqn:Hr; [|discriminate].
    intros E. pose proof E as E'. apply take_content_inv in E' as (-> & _).
    exact (split_long_inv Rlp.KString _ b r size r' v rest eq_refl ltac:(simpl; lia) Hr E). }
  destruct (N.ltb_spec (Byte.to_N b) 248).
  { intros E. pose proof E as E'. apply take_content_inv in E' as (-> & _).
    exact (split_short_inv Rlp.KList _ b r v rest eq_refl ltac:(simpl; lia) E). }
  destruct (Rlp.read_size _ r) as [[size r']|e] eqn:Hr; [|discriminate].
  intros E. pose proof E as E'. apply take_content_inv in E' as (-> & _).
  exact (split_long_inv Rlp.KList _ b r size r' v rest eq_refl ltac:(simpl; lia) Hr E).
Qed.

Lemma field_inv {T A} (d : Rlp.Kind -> bytes -> result A Rlp.error) set (t : T) c t' rest :
  Rlp.field d set t c = (t', Ok rest) ->
  exists k v a, Rlp.split c = Ok (k, v, rest) /\ d k v = Ok a /\ t' = set t a.
Proof.
  unfold Rlp.field. destruct c as [|b c]; [discriminate|].
  destruct (Rlp.split (b :: c)) as [[[k v] r]|e] eqn:Sp; [|discriminate].
  destruct (d k v) as [a|e] eqn:D; [|discriminate].
  intros E. injection E as <- <-. exists k, v, a. auto.
Qed.

Lemma then_field_inv {T} (f g : Rlp.fieldDec T) t c t' r :
  Rlp.then_field f g t c = (t', Ok r) ->
  exists t1 c', f t c = (t1, Ok c') /\ g t1 c' = (t', Ok r).
Proof.
  unfold Rlp.then_field. destruct (f t c) as [t1 [c'|e]]; [eauto|discriminate].
Qed.

Lemma decode_struct_inv {T} (fields : Rlp.fieldDec T) t bs t' rest :
  Rlp.decode_struct fields t bs = (t', Ok rest) ->
  exists c, Rlp.split bs = Ok (Rlp.KList, c, rest) /\ fields t c = (t', Ok []).
Proof.
  unfold Rlp.decode_struct.
  destruct (Rlp.split bs) as [[[[|] c] r]|e] eqn:Sp; try discriminate.
  destruct (fields t c) as [t1 [[|x l]|e]] eqn:F; try discriminate.
  intros E. injection E as <- <-. eauto.
Qed.

Lemma dec_struct_in_inv {T} (fields : Rlp.fieldDec T) t k c t' :
  Rlp.dec_struct_in fields t k c = Ok t' -> k = Rlp.KList /\ fields t c = (t', Ok []).
Proof.
  unfold Rlp.dec_struct_in. destruct k; [discriminate|].
  destruct (fields t c) as [t1 [[|x l]|e]] eqn:F; try discriminate.
  intros E. injection E as <-. auto.
Qed.

Lemma dec_hash_inv k v a :
  Rlp.dec_hash k v = Ok a -> k = Rlp.KString /\ a = v /\ length v = 32.
Proof.
  unfold Rlp.dec_hash. destruct k; [|discriminate].
  destruct (Nat.ltb_spec 32 (length v)); [discriminate|].
  destruct (Nat.ltb_spec (length v) 32); [discriminate|].
  intros E. injection E as <-. repeat split. lia.
Qed.

Lemma dec_uint64_inv k v n :
  Rlp.dec_uint64 k v = Ok n -> k = Rlp.KString /\ v = be_bytes n /\ (n < two64)%N.
Proof.
  unfold Rlp.dec_uint64. destruct k; [|discriminate].
  destruct (Nat.ltb_spec 8 (length v)); [discriminate|].
  destruct (leading_zero v) eqn:Z; [discriminate|].
  intros E. injection E as <-. repeat split; [now rewrite be_bytes_of_value|].
  eapply N.lt_le_trans; [apply be_value_lt|].
  replace two64 with (256 ^ 8)%N by reflexivity. apply N.pow_le_mono_r; lia.
Qed.

Lemma dec_bigint_inv k v n :
  Rlp.dec_bigint k v = Ok n -> k = Rlp.KString /\ v = be_bytes n.
Proof.
  unfold Rlp.dec_bigint. destruct k; [|discriminate].
  destruct (leading_zero v) eqn:Z; [discriminate|].
  intros E. injection E as <-. split; [reflexivity|now rewrite be_bytes_of_value].
Qed.

Lemma dec_bytes_inv k v a : Rlp.dec_bytes k v = Ok a -> k = Rlp.KString /\ a = v.
Proof. destruct k; [|discriminate]. intros E. injection E as <-. auto. Qed.

Lemma dec_string_inv k v s :
  Rlp.dec_string k v = Ok s -> k = Rlp.KString /\ v = list_byte_of_string s.
Proof.
  unfold Rlp.dec_string. destruct k; [|discriminate].
  intros E. injection E as <-. split; [reflexivity|].
  now rewrite list_byte_of_string_of_list_byte.
Qed.

Lemma Header_fields_inv t c h rest :
  Blk.Header_fields t c = (h, Ok rest) ->
  c = Blk.Header_payload h ++ rest /\
  length (Blk.PrevHash h) = 32 /\ length (Blk.StmtsRoot h) = 32 /\
  (Blk.Number h < two64)%N /\ (Blk.Time h < two64)%N.
Proof.
  unfold Blk.Header_fields. intros H.
  apply then_field_inv in H as (t1 & c1 & H1 & H).
  apply field_inv in H1 as (k1 & v1 & a1 & S1 & D1 & ->).
  apply dec_hash_inv in D1 as (-> & -> & L1). apply split_inv in S1 as (-> & _).
  apply then_field_inv in H as (t2 & c2 & H2 & H).
  apply field_inv in H2 as (k2 & v2 & a2 & S2 & D2 & ->).
  apply dec_uint64_inv in D2 as (-> & -> & N2). apply split_inv in S2 as (-> & _).
  apply then_field_inv in H as (t3 & c3 & H3 & H).
  apply field_inv in H3 as (k3 & v3 & a3 & S3 & D3 & ->).
  apply dec_uint64_inv in D3 as (-> & -> & N3). apply split_inv in S3 as (-> & _).
  apply then_field_inv in H as (t4 & c4 & H4 & H).
  apply field_inv in H4 as (k4 & v4 & a4 & S4 & D4 & ->).
  apply dec_hash_inv in D4 as (-> & -> & L4). apply split_inv in S4 as (-> & _).
  apply then_field_inv in H as (t5 & c5 & H5 & H).
  apply field_inv in H5 as (k5 & v5 & a5 & S5 & D5 & ->).
  apply dec_string_inv in D5 as (-> & ->). apply split_inv in S5 as (-> & _).
  apply field_inv in H as (k6 & v6 & a6 & S6 & D6 & ->).
  apply dec_bytes_inv in D6 as (-> & ->). apply split_inv in S6 as (-> & _).
  unfold Blk.Header_payload, Rlp.enc_uint.
  cbn [enc_kind Blk.set_Signature Blk.set_SignatureType Blk.set_StmtsRoot Blk.set_Time
       Blk.set_Number Blk.set_PrevHash Blk.PrevHash Blk.Number Blk.Time Blk.StmtsRoot
       Blk.SignatureType Blk.Signature].
  rewrite <- !app_assoc. auto.
Qed.

Lemma kv_fields_inv t c x rest :
  Stmt.kv_fields t c = (x, Ok rest) -> c = kv_payload x ++ rest.
Proof.
  unfold Stmt.kv_fields. intros H.
  apply then_field_inv in H as (t1 & c1 & H1 & H).
  apply field_inv in H1 as (k1 & v1 & a1 & S1 & D1 & ->).
  apply dec_bytes_inv in D1 as (-> & ->). apply split_inv in S1 as (-> & _).
  apply then_field_inv in H as (t2 & c2 & H2 & H).
  apply field_inv in H2 as (k2 & v2 & a2 & S2 & D2 & ->).
  apply dec_bytes_inv in D2 as (-> & ->). apply split_inv in S2 as (-> & _).
  apply then_field_inv in H as (t3 & c3 & H3 & H).
  apply field_inv in H3 as (k3 & v3 & a3 & S3 & D3 & ->).
  apply dec_bigint_inv in D3 as (-> & ->). apply split_inv in S3 as (-> & _).
  apply then_field_inv in H as (t4 & c4 & H4 & H).
  apply field_inv in H4 as (k4 & v4 & a4 & S4 & D4 & ->).
  apply dec_bigint_inv in D4 as (-> & ->). apply split_inv in S4 as (-> & _).
  apply field_inv in H as (k5 & v5 & a5 & S5 & D5 & ->).
  apply dec_bigint_inv in D5 as (-> & ->). apply split_inv in S5 as (-> & _).
  unfold kv_payload, Rlp.enc_uint.
  cbn [enc_kind Stmt.set_Key Stmt.set_Value Stmt.set_V Stmt.set_R Stmt.set_S
       Stmt.Key Stmt.Value Stmt.V Stmt.R Stmt.S_].
  rewrite <- !app_assoc. reflexivity.
Qed.

Lemma kv_rlp_payload x : Stmt.kv_rlp x = Rlp.enc_list (kv_payload x).
Proof. reflexivity. Qed.

Lemma Stmt_DecodeRLP_inv s c s' rest :
  Stmt.DecodeRLP s c = (s', Ok rest) ->
  c = Stmt.EncodeRLP s' ++ rest /\ kv_wf (Stmt.kv s').
Proof.
  unfold Stmt.DecodeRLP.
  destruct (Rlp.decode_struct Stmt.kv_fields (Stmt.kv s) c) as [x [r|e]] eqn:E; [|discriminate].
  intros E'. injection E' as <- <-.
  apply decode_struct_inv in E as (p & Sp & F).
  apply kv_fields_inv in F. rewrite app_nil_r in F. subst p.
  apply split_inv in Sp as (-> & Fit). split; [reflexivity|exact Fit].
Qed.

Lemma dec_elems_inv fuel c sts :
  Rlp.dec_elems fuel Blk.dec_stmt c = Ok sts ->
  c = concat (map Stmt.EncodeRLP sts) /\ Forall (fun s => kv_wf (Stmt.kv s)) sts.
Proof.
  revert c sts. induction fuel as [|f IH]; intros c sts.
  - destruct c; [intros E; injection E as <-; auto|discriminate].
  - destruct c as [|b c]; [intros E; injection E as <-; auto|].
    simpl. unfold Blk.dec_stmt at 1.
    destruct (Stmt.DecodeRLP Stmt.zero (b :: c)) as [s [rest|e]] eqn:D; [|discriminate].
    destruct (Rlp.dec_elems f Blk.dec_stmt rest) as [l|e] eqn:R; [|discriminate].
    intros E. injection E as <-.
    apply Stmt_DecodeRLP_inv in D as (-> & W).
    apply IH in R as (-> & Fl). split; [reflexivity|constructor; auto].
Qed.

Lemma Blk_DecodeRLP_inv b0 data b rest :
  Blk.DecodeRLP b0 data = (b, Ok rest) ->
  data = Blk.EncodeRLP b ++ rest /\ Block_wf b /\ Blk.hash b = Blk.hash b0.
Proof.
  unfold Blk.DecodeRLP.
  destruct (Rlp.decode_struct Blk.encBlock_fields _ data) as [enc [r|e]] eqn:E; [|discriminate].
  intros E'. injection E' as <- <-.
  apply decode_struct_inv in E as (p & Sp & F).
  unfold Blk.encBlock_fields in F.
  apply then_field_inv in F as (e1 & c1 & F1 & F2).
  apply field_inv in F1 as (k1 & v1 & h & S1 & D1 & ->).
  apply dec_struct_in_inv in D1 as (-> & Hh).
  apply Header_fields_inv in Hh as (Ev1 & L1 & L2 & N1 & N2).
  rewrite app_nil_r in Ev1. subst v1.
  apply split_inv in S1 as (-> & Fh).
  apply field_inv in F2 as (k2 & v2 & sts & S2 & D2 & ->).
  destruct k2; [discriminate|]. cbn in D2.
  apply dec_elems_inv in D2 as (-> & Fs).
  apply split_inv in S2 as (E2 & _). rewrite app_nil_r in E2. subst c1.
  apply split_inv in Sp as (-> & Fp).
  cbn. repeat split; auto.
Qed.

(* ------------------------------------------------------------------ *)
(** ** Decoding what the encoder writes *)

Lemma fits_le (l1 l2 : bytes) : length l1 <= length l2 -> fits l2 -> fits l1.
Proof. unfold fits. lia. Qed.

Lemma fits_be_bytes n : (n < two64)%N -> fits (be_bytes n).
Proof. intros H. pose proof (be_bytes_length_64 n H). unfold fits, two64. lia. Qed.

Lemma fits_32 (l : bytes) : length l = 32 -> fits l.
Proof. intros H. unfold fits, two64. rewrite H. lia. Qed.

Lemma dec_string_ok s : Rlp.dec_string Rlp.KString (list_byte_of_string s) = Ok s.
Proof. unfold Rlp.dec_string. simpl. now rewrite string_of_list_byte_of_string. Qed.

Lemma dec_bytes_ok v : Rlp.dec_bytes Rlp.KString v = Ok v.
Proof. reflexivity. Qed.

Lemma Header_fields_roundtrip t h rest :
  Header_wf h -> Blk.Header_fields t (Blk.Header_payload h ++ rest) = (h, Ok rest).
Proof.
  intros (L1 & L4 & N2 & N3 & F).
  assert (F5 : fits (list_byte_of_string (Blk.SignatureType h))).
  { refine (fits_le _ _ _ F). unfold Blk.Header_payload. rewrite !length_app.
    pose proof (enc_string_length (list_byte_of_string (Blk.SignatureType h))). lia. }
  assert (F6 : fits (Blk.Signature h)).
  { refine (fits_le _ _ _ F). unfold Blk.Header_payload. rewrite !length_app.
    pose proof (enc_string_length (Blk.Signature h)). lia. }
  unfold Blk.Header_fields, Blk.Header_payload, Rlp.enc_uint. rewrite <- !app_assoc.
  rewrite (then_field_step _ _ _ _ _ _ (field_step _ _ _ _ _ _ _ _
             (split_enc_string _ _ (fits_32 _ L1)) (dec_hash_32 _ L1))).
  rewrite (then_field_step _ _ _ _ _ _ (field_step _ _ _ _ _ _ _ _
             (split_enc_string _ _ (fits_be_bytes _ N2)) (dec_uint64_be _ N2))).
  rewrite (then_field_step _ _ _ _ _ _ (field_step _ _ _ _ _ _ _ _
             (split_enc_string _ _ (fits_be_bytes _ N3)) (dec_uint64_be _ N3))).
  rewrite (then_field_step _ _ _ _ _ _ (field_step _ _ _ _ _ _ _ _
             (split_enc_string _ _ (fits_32 _ L4)) (dec_hash_32 _ L4))).
  rewrite (then_field_step _ _ _ _ _ _ (field_step _ _ _ _ _ _ _ _
             (split_enc_string _ _ F5) (dec_string_ok _))).
  rewrite (field_step _ _ _ _ _ _ _ _ (split_enc_string _ _ F6) (dec_bytes_ok _)).
  destruct h. reflexivity.
Qed.

Lemma kv_fields_roundtrip t x rest :
  kv_wf x -> Stmt.kv_fields t (kv_payload x ++ rest) = (x, Ok rest).
Proof.
  unfold kv_wf, kv_payload, Rlp.enc_uint. intros F.
  assert (Hs : forall l, length l <= length (kv_payload x) -> fits l)
    by (intros l Hl; exact (fits_le _ _ Hl F)).
  unfold kv_payload, Rlp.enc_uint in Hs. rewrite !length_app in Hs.
  pose proof (enc_string_length (Stmt.Key x)). pose proof (enc_string_length (Stmt.Value x)).
  pose proof (enc_string_length (be_bytes (Stmt.V x))).
  pose proof (enc_string_length (be_bytes (Stmt.R x))).
  pose proof (enc_string_length (be_bytes (Stmt.S_ x))).
  assert (F1 : fits (Stmt.Key x)) by (apply Hs; lia).
  assert (F2 : fits (Stmt.Value x)) by (apply Hs; lia).
  assert (F3 : fits (be_bytes (Stmt.V x))) by (apply Hs; lia).
  assert (F4 : fits (be_bytes (Stmt.R x))) by (apply Hs; lia).
  assert (F5 : fits (be_bytes (Stmt.S_ x))) by (apply Hs; lia).
  unfold Stmt.kv_fields. rewrite <- !app_assoc.
  rewrite (then_field_step _ _ _ _ _ _ (field_step _ _ _ _ _ _ _ _
             (split_enc_string _ _ F1) (dec_bytes_ok _))).
  rewrite (then_field_step _ _ _ _ _ _ (field_step _ _ _ _ _ _ _ _
             (split_enc_string _ _ F2) (dec_bytes_ok _))).
  rewrite (then_field_step _ _ _ _ _ _ (field_step _ _ _ _ _ _ _ _
             (split_enc_string _ _ F3) (dec_bigint_be _))).
  rewrite (then_field_step _ _ _ _ _ _ (field_step _ _ _ _ _ _ _ _
             (split_enc_string _ _ F4) (dec_bigint_be _))).
  rewrite (field_step _ _ _ _ _ _ _ _ (split_enc_string _ _ F5) (dec_bigint_be _)).
  destruct x. reflexivity.
Qed.

Lemma Stmt_DecodeRLP_roundtrip s x rest :
  kv_wf x -> exists s', Stmt.DecodeRLP s (Stmt.kv_rlp x ++ rest) = (s', Ok rest) /\ Stmt.kv s' = x.
Proof.
  intros W. unfold Stmt.DecodeRLP. rewrite kv_rlp_payload, (split_enc_list _ _ W).
  pose proof (kv_fields_roundtrip (Stmt.kv s) x [] W) as K. rewrite app_nil_r in K.
  rewrite (decode_struct_step _ _ _ _ _ _ (split_enc_list _ _ W) K).
  eexists. split; reflexivity.
Qed.

Lemma dec_elems_cons {A} f (d : bytes -> result (A * bytes) Rlp.error) c :
  c <> [] ->
  Rlp.dec_elems (S f) d c =
  match d c with
  | Err e => Err e
  | Ok (a, rest) => match Rlp.dec_elems f d rest with Ok l => Ok (a :: l) | Err e => Err e end
  end.
Proof. destruct c; [congruence|reflexivity]. Qed.

Lemma dec_elems_roundtrip sts fuel :
  Forall (fun s => kv_wf (Stmt.kv s)) sts ->
  length (concat (map Stmt.EncodeRLP sts)) <= fuel ->
  exists sts', Rlp.dec_elems fuel Blk.dec_stmt (concat (map Stmt.EncodeRLP sts)) = Ok sts' /\
               map Stmt.kv sts' = map Stmt.kv sts.
Proof.
  revert fuel. induction sts as [|s sts IH]; intros fuel F Lf.
  - exists []. destruct fuel; split; reflexivity.
  - inversion F as [|? ? W Fs]; subst. cbn [map concat] in *.
    pose proof (enc_list_nonempty (kv_payload (Stmt.kv s))) as Ne.
    assert (L1 : 1 <= length (Stmt.EncodeRLP s)).
    { unfold Stmt.EncodeRLP. rewrite kv_rlp_payload.
      destruct (Rlp.enc_list _); [congruence|simpl; lia]. }
    rewrite length_app in Lf.
    destruct fuel as [|f]; [lia|].
    rewrite dec_elems_cons.
    2:{ unfold Stmt.EncodeRLP. rewrite kv_rlp_payload.
        destruct (Rlp.enc_list _); [congruence|discriminate]. }
    destruct (Stmt_DecodeRLP_roundtrip Stmt.zero (Stmt.kv s) (concat (map Stmt.EncodeRLP sts)) W)
      as (s' & Ed & Ek).
    unfold Blk.dec_stmt at 1. unfold Stmt.EncodeRLP at 1. rewrite Ed.
    destruct (IH f Fs ltac:(lia)) as (sts' & Er & Em). rewrite Er.
    exists (s' :: sts'). cbn. rewrite Ek, Em. auto.
Qed.

Lemma Blk_DecodeRLP_roundtrip b0 b rest :
  Block_wf b ->
  exists b', Blk.DecodeRLP b0 (Blk.EncodeRLP b ++ rest) = (b', Ok rest) /\
             Blk.header b' = Blk.header b /\
             map Stmt.kv (Blk.statements b') = map Stmt.kv (Blk.statements b) /\
             Blk.hash b' = Blk.hash b0.
Proof.
  intros (Hw & Fs & Fp).
  pose proof Hw as (_ & _ & _ & _ & Fh).
  set (h := Blk.header b) in *. set (sts := Blk.statements b) in *.
  assert (Fc : fits (concat (map Stmt.EncodeRLP sts))).
  { refine (fits_le _ _ _ Fp). unfold Blk.encBlock_payload. rewrite length_app.
    pose proof (enc_list_length (concat (map Stmt.EncodeRLP sts))). lia. }
  destruct (dec_elems_roundtrip sts _ Fs (Nat.le_refl _)) as (sts' & Ed & Em).
  assert (DH : Rlp.dec_struct_in Blk.Header_fields Blk.zeroHeader Rlp.KList
                 (Blk.Header_payload h) = Ok h).
  { pose proof (Header_fields_roundtrip Blk.zeroHeader h [] Hw) as E.
    rewrite app_nil_r in E. unfold Rlp.dec_struct_in. now rewrite E. }
  assert (SS : Rlp.split (Rlp.enc_list (concat (map Stmt.EncodeRLP sts)))
               = Ok (Rlp.KList, concat (map Stmt.EncodeRLP sts), [])).
  { pose proof (split_enc_list _ [] Fc) as E. now rewrite app_nil_r in E. }
  assert (FL : Blk.encBlock_fields {| Blk.enc_Header := Blk.zeroHeader; Blk.enc_Statements := [] |}
                 (Blk.encBlock_payload h sts)
               = ({| Blk.enc_Header := h; Blk.enc_Statements := sts' |}, Ok [])).
  { unfold Blk.encBlock_fields, Blk.encBlock_payload, Blk.Header_rlp.
    rewrite (then_field_step _ _ _ _ _ _ (field_step _ _ _ _ _ _ _ _ (split_enc_list _ _ Fh) DH)).
    exact (field_step _ _ _ _ _ _ _ _ SS Ed). }
  unfold Blk.DecodeRLP, Blk.EncodeRLP. fold h sts.
  rewrite (decode_struct_step _ _ _ _ _ _ (split_enc_list _ _ Fp) FL).
  eexists. split; [reflexivity|]. cbn. auto.
Qed.

(** [GetBlock] only reads the key of the requested number. *)
Lemma GetBlock_ext db1 db2 n :
  db1 (DbUtil.mkBlockKey n) = db2 (DbUtil.mkBlockKey n) ->
  DbUtil.GetBlock db1 n = DbUtil.GetBlock db2 n.
Proof. intros E. unfold DbUtil.GetBlock. now rewrite E. Qed.

Lemma GetBlock_inv db n b :
  DbUtil.GetBlock db n = Some b ->
  exists rest, db (DbUtil.mkBlockKey n) = Some (Blk.EncodeRLP b ++ rest) /\
               Block_wf b /\ Blk.hash b = None.
Proof.
  unfold DbUtil.GetBlock.
  destruct (db (DbUtil.mkBlockKey n)) as [[|x d]|]; try discriminate.
  destruct (Blk.DecodeRLP Blk.zero (x :: d)) as [b' [r|e]] eqn:D; [|discriminate].
  intros E. injection E as <-.
  apply Blk_DecodeRLP_inv in D as (Ed & W & Hh). rewrite Ed. eauto.
Qed.

Lemma GetBlock_encoded db n b :
  Block_wf b -> db (DbUtil.mkBlockKey n) = Some (Blk.EncodeRLP b) ->
  exists b', DbUtil.GetBlock db n = Some b' /\ Blk.header b' = Blk.header b /\
             map Stmt.kv (Blk.statements b') = map Stmt.kv (Blk.statements b) /\
             Blk.hash b' = None.
Proof.
  intros W Hd. unfold DbUtil.GetBlock. rewrite Hd.
  destruct (Blk_DecodeRLP_roundtrip Blk.zero b [] W) as (b' & E & Eh & Es & Ehs).
  rewrite app_nil_r in E.
  destruct (Blk.EncodeRLP b) as [|x d] eqn:Eb.
  { unfold Blk.EncodeRLP in Eb. exfalso. exact (enc_list_nonempty _ Eb). }
  rewrite E. exists b'. auto.
Qed.

(* ------------------------------------------------------------------ *)
(** ** Encoded sizes and the genesis block *)

Lemma enc_header_length_le off n : (N.of_nat n < two64)%N -> length (Rlp.enc_header off n) <= 9.
Proof.
  intros H. unfold Rlp.enc_header. destruct (N.of_nat n <? 56)%N; [simpl; lia|].
  pose proof (be_bytes_length_64 _ H). simpl. lia.
Qed.

Lemma enc_string_length_le bs : fits bs -> length (Rlp.enc_string bs) <= length bs + 9.
Proof.
  intros F. unfold Rlp.enc_string.
  destruct bs as [|x [|y l]];
    [| destruct (Byte.to_N x <? 128)%N; [simpl; lia|] |];
    rewrite length_app; pose proof (enc_header_length_le 128 _ F); simpl in *; lia.
Qed.

Lemma enc_list_length_le p : fits p -> length (Rlp.enc_list p) <= length p + 9.
Proof.
  intros F. unfold Rlp.enc_list. rewrite length_app.
  pose proof (enc_header_length_le 192 _ F). lia.
Qed.

Lemma u64_lt z : (u64 z < two64)%N.
Proof.
  unfold u64, two64.
  pose proof (Z.mod_pos_bound z (Z.pos 18446744073709551616) eq_refl). lia.
Qed.

Lemma lastBlockKey_ne n : DbUtil.lastBlockKey <> DbUtil.mkBlockKey n.
Proof. unfold DbUtil.lastBlockKey, DbUtil.mkBlockKey. cbn. discriminate. Qed.

Section GenesisFacts.
Context {C : Crypto}.

Lemma signature_of_length d k : length (signature_of d k) <= 65.
Proof.
  unfold signature_of. destruct (crypto_Sign d k) as [sig|] eqn:E; [|simpl; lia].
  rewrite (crypto_Sign_length _ _ _ E). lia.
Qed.

Lemma Genesis_wf key now : Block_wf (Genesis.NewBlock key now).
Proof.
  unfold Genesis.NewBlock, Blk.sign.
  set (h0 := {| Blk.PrevHash := zeroHash; Blk.Number := 0; Blk.Time := u64 now;
                Blk.StmtsRoot := zeroHash; Blk.SignatureType := "ECDSA"; Blk.Signature := [] |}).
  set (sig := signature_of (Keccak256 (Blk.Header_rlp (Blk.unsignedData h0))) key).
  pose proof (signature_of_length (Keccak256 (Blk.Header_rlp (Blk.unsignedData h0))) key) as Ls.
  fold sig in Ls.
  assert (Lz : length zeroHash = 32) by reflexivity.
  pose proof (be_bytes_length_64 _ (u64_lt now)) as Ltm.
  assert (Hp : length (Blk.Header_payload (Blk.set_Signature h0 sig)) <= 200).
  { unfold Blk.Header_payload, Rlp.enc_uint. cbn [Blk.set_Signature h0 Blk.PrevHash Blk.Number
      Blk.Time Blk.StmtsRoot Blk.SignatureType Blk.Signature]. rewrite !length_app.
    pose proof (enc_string_length_le zeroHash (fits_32 _ Lz)).
    pose proof (enc_string_length_le (be_bytes (u64 now)) (fits_be_bytes _ (u64_lt now))).
    pose proof (enc_string_length_le sig ltac:(unfold fits, two64; lia)).
    change (length (Rlp.enc_string (be_bytes 0))) with 1.
    change (length (Rlp.enc_string (list_byte_of_string "ECDSA"))) with 6.
    lia. }
  assert (Fp : fits (Blk.Header_payload (Blk.set_Signature h0 sig))) by (unfold fits, two64; lia).
  split; [|split].
  - split; [reflexivity|]. split; [reflexivity|].
    split; [exact (eq_refl : (0 ?= two64)%N = Lt)|]. split; [apply u64_lt|exact Fp].
  - constructor.
  - unfold fits, Blk.encBlock_payload, Blk.Header_rlp. cbn [Blk.header Blk.statements].
    rewrite length_app. pose proof (enc_list_length_le _ Fp).
    change (length (Rlp.enc_list (concat (map Stmt.EncodeRLP [])))) with 1.
    unfold two64. lia.
Qed.

Lemma HashOf_header b : Blk.header (snd (Blk.HashOf b)) = Blk.header b.
Proof. unfold Blk.HashOf. destruct (Blk.hash b); reflexivity. Qed.

Lemma HashOf_none b : Blk.hash b = None -> fst (Blk.HashOf b) = Blk.header_hash (Blk.header b).
Proof. intros E. unfold Blk.HashOf. now rewrite E. Qed.

Lemma NewChain_eq db key now :
  Chain.NewChain db key now =
  let fb0 := match DbUtil.GetBlock db 0 with
             | Some b => b | None => Genesis.NewBlock key now end in
  (Put (Put db (DbUtil.mkBlockKey (Blk.Number (Blk.header fb0))) (Blk.EncodeRLP fb0))
       DbUtil.lastBlockKey (fst (Blk.HashOf fb0)),
   Ok (Some {| Chain.firstBlock := snd (Blk.HashOf fb0); Chain.currentBlock := snd (Blk.HashOf fb0);
               Chain.privateKey := key; Chain.trieStatus := Some Chain.unlocked |})).
Proof.
  unfold Chain.NewChain, DbUtil.WriteBlock, DbUtil.WriteLastObserverBlockHash. cbv zeta.
  destruct (Blk.HashOf _). reflexivity.
Qed.

Lemma first_block_facts db key now :
  let fb0 := match DbUtil.GetBlock db 0 with
             | Some b => b | None => Genesis.NewBlock key now end in
  Block_wf fb0 /\ Blk.hash fb0 = None /\
  (DbUtil.GetBlock db 0 = Some fb0 \/
   (DbUtil.GetBlock db 0 = None /\ Blk.Number (Blk.header fb0) = 0%N)).
Proof.
  cbv zeta. destruct (DbUtil.GetBlock db 0) as [b|] eqn:G.
  - apply GetBlock_inv in G as (rest & _ & W & Hh). auto.
  - split; [apply Genesis_wf|]. split; [reflexivity|]. right. auto.
Qed.

End GenesisFacts.

Section ChainClaims.
Context {C : Crypto}.

(** C4: on an empty store, [NewChain] builds, signs and stores a block
    numbered 0 with the zero previous hash and no statements, and makes it
    both the first and the current block; it also stores its hash under the
    head key. Whatever the store, building a chain again on the store the
    first construction left gives a first block with the same header, hence
    the same hash: the block is read back, not generated anew (even with
    another key or at another time). *)
Theorem NewChain_genesis_idempotent (db : Database) (key key' : N) (now now' : Z) :
  (exists db1 c1,
     Chain.NewChain (fun _ => None) key now = (db1, Ok (Some c1)) /\
     Chain.firstBlock c1 = Chain.currentBlock c1 /\
     Blk.Number (Blk.header (Chain.firstBlock c1)) = 0%N /\
     Blk.PrevHash (Blk.header (Chain.firstBlock c1)) = zeroHash /\
     Blk.statements (Chain.firstBlock c1) = [] /\
     Blk.Signature (Blk.header (Chain.firstBlock c1)) =
       signature_of (Keccak256 (Blk.Header_rlp (Blk.unsignedData (Blk.header (Chain.firstBlock c1)))))
                    key /\
     db1 (DbUtil.mkBlockKey 0) = Some (Blk.EncodeRLP (Chain.firstBlock c1)) /\
     db1 DbUtil.lastBlockKey = Some (fst (Blk.HashOf (Chain.firstBlock c1)))) /\
  (exists db1 c1 db2 c2,
     Chain.NewChain db key now = (db1, Ok (Some c1)) /\
     Chain.NewChain db1 key' now' = (db2, Ok (Some c2)) /\
     Blk.header (Chain.firstBlock c2) = Blk.header (Chain.firstBlock c1) /\
     fst (Blk.HashOf (Chain.firstBlock c2)) = fst (Blk.HashOf (Chain.firstBlock c1))).
Proof.
  split.
  - rewrite NewChain_eq. cbv zeta.
    assert (G : DbUtil.GetBlock (fun _ => None) 0 = None) by reflexivity. rewrite G.
    eexists _, _. split; [reflexivity|]. cbn [Chain.firstBlock Chain.currentBlock].
    split; [reflexivity|]. split; [reflexivity|]. split; [reflexivity|].
    split; [reflexivity|]. split; [reflexivity|]. split.
    + unfold Put.
      destruct (list_eq_dec Byte.byte_eq_dec DbUtil.lastBlockKey (DbUtil.mkBlockKey 0)) as [E|_];
        [exfalso; exact (lastBlockKey_ne 0 E)|].
      destruct (list_eq_dec Byte.byte_eq_dec _ (DbUtil.mkBlockKey 0)) as [_|NE];
        [reflexivity|exfalso; apply NE; reflexivity].
    + unfold Put at 1.
      destruct (list_eq_dec Byte.byte_eq_dec DbUtil.lastBlockKey DbUtil.lastBlockKey) as [_|NE];
        [|exfalso; apply NE; reflexivity].
      now rewrite HashOf_snd.
  - rewrite (NewChain_eq db). cbv zeta.
    pose proof (first_block_facts db key now) as F. cbv zeta in F.
    set (fb0 := match DbUtil.GetBlock db 0 with
                | Some b => b | None => Genesis.NewBlock key now end) in *.
    destruct F as (W & Hn & Hcase).
    set (db1 := Put (Put db (DbUtil.mkBlockKey (Blk.Number (Blk.header fb0))) (Blk.EncodeRLP fb0))
                    DbUtil.lastBlockKey (fst (Blk.HashOf fb0))).
    assert (Hk : db1 (DbUtil.mkBlockKey 0) =
                 Put db (DbUtil.mkBlockKey (Blk.Number (Blk.header fb0))) (Blk.EncodeRLP fb0)
                     (DbUtil.mkBlockKey 0)).
    { unfold db1, Put at 1.
      destruct (list_eq_dec Byte.byte_eq_dec DbUtil.lastBlockKey (DbUtil.mkBlockKey 0)) as [E|_];
        [exfalso; exact (lastBlockKey_ne 0 E)|reflexivity]. }
    assert (Hfb : exists fb1, DbUtil.GetBlock db1 0 = Some fb1 /\
                              Blk.header fb1 = Blk.header fb0 /\ Blk.hash fb1 = None).
    { unfold Put in Hk.
      destruct (list_eq_dec Byte.byte_eq_dec (DbUtil.mkBlockKey (Blk.Number (Blk.header fb0)))
                            (DbUtil.mkBlockKey 0)) as [Ek|Nk].
      - destruct (GetBlock_encoded db1 0 fb0 W Hk) as (b' & G & Eh & _ & Eb). eauto.
      - rewrite (GetBlock_ext db1 db 0 Hk).
        destruct Hcase as [G|[_ Hz]].
        + exists fb0. auto.
        + exfalso. apply Nk. now rewrite Hz. }
    destruct Hfb as (fb1 & G1 & Eh & Eb).
    eexists db1, _, _, _. split; [reflexivity|].
    rewrite (NewChain_eq db1). cbv zeta. rewrite G1.
    split; [reflexivity|].
    cbn [Chain.firstBlock]. rewrite !HashOf_header, !HashOf_snd, (HashOf_none _ Eb), (HashOf_none _ Hn).
    rewrite Eh. auto.
Qed.

End ChainClaims.

(** C6: [Chain.Block n] gives the error [ErrNoBlock] when the store holds
    nothing (or empty data) under the key of block [n], and when it holds
    the encoding of a block it gives that block back: its header and the
    contents of its statements. *)
Theorem Block_absent_or_stored (db : Database) (o : Chain.Chain) (n : N) :
  ((db (DbUtil.mkBlockKey n) = None \/ db (DbUtil.mkBlockKey n) = Some []) ->
   Chain.Block db o n = Err Chain.ErrNoBlock) /\
  (forall b, Block_wf b -> db (DbUtil.mkBlockKey n) = Some (Blk.EncodeRLP b) ->
   exists b', Chain.Block db o n = Ok b' /\ Blk.header b' = Blk.header b /\
              map Stmt.kv (Blk.statements b') = map Stmt.kv (Blk.statements b)).
Proof.
  split.
  - intros [E|E]; unfold Chain.Block, DbUtil.GetBlock; rewrite E; reflexivity.
  - intros b W E. destruct (GetBlock_encoded db n b W E) as (b' & G & Eh & Es & _).
    exists b'. unfold Chain.Block. rewrite G. auto.
Qed.

(* ================================================================== *)
(** * Further properties of the code *)

(* ------------------------------------------------------------------ *)
(** ** Block keys *)

Lemma shiftr_succ_byte n k : N.shiftr n (k + 8) = (N.shiftr n k / 256)%N.
Proof.
  rewrite !N.shiftr_div_pow2, N.pow_add_r, <- N.Div0.div_div.
  reflexivity.
Qed.

Lemma be64_value_mod n : be_value (DbUtil.be64 n) = (n mod two64)%N.
Proof.
  unfold DbUtil.be64, be_value. cbn [map fold_left]. rewrite !byte_of_N_to_N.
  pose proof (shiftr_succ_byte n 0) as D1. pose proof (shiftr_succ_byte n 8) as D2.
  pose proof (shiftr_succ_byte n 16) as D3. pose proof (shiftr_succ_byte n 24) as D4.
  pose proof (shiftr_succ_byte n 32) as D5. pose proof (shiftr_succ_byte n 40) as D6.
  pose proof (shiftr_succ_byte n 48) as D7. pose proof (shiftr_succ_byte n 56) as D8.
  cbn [N.add Pos.add Pos.succ] in D1, D2, D3, D4, D5, D6, D7, D8.
  rewrite N.shiftr_0_r in D1 |- *.
  pose proof (N.div_mod n 256 ltac:(lia)).
  pose proof (N.div_mod (N.shiftr n 8) 256 ltac:(lia)).
  pose proof (N.div_mod (N.shiftr n 16) 256 ltac:(lia)).
  pose proof (N.div_mod (N.shiftr n 24) 256 ltac:(lia)).
  pose proof (N.div_mod (N.shiftr n 32) 256 ltac:(lia)).
  pose proof (N.div_mod (N.shiftr n 40) 256 ltac:(lia)).
  pose proof (N.div_mod (N.shiftr n 48) 256 ltac:(lia)).
  pose proof (N.div_mod (N.shiftr n 56) 256 ltac:(lia)).
  pose proof (N.mod_lt n 256 ltac:(lia)).
  pose proof (N.mod_lt (N.shiftr n 8) 256 ltac:(lia)).
  pose proof (N.mod_lt (N.shiftr n 16) 256 ltac:(lia)).
  pose proof (N.mod_lt (N.shiftr n 24) 256 ltac:(lia)).
  pose proof (N.mod_lt (N.shiftr n 32) 256 ltac:(lia)).
  pose proof (N.mod_lt (N.shiftr n 40) 256 ltac:(lia)).
  pose proof (N.mod_lt (N.shiftr n 48) 256 ltac:(lia)).
  pose proof (N.mod_lt (N.shiftr n 56) 256 ltac:(lia)).
  apply (N.mod_unique n two64 (N.shiftr n 64)); unfold two64; lia.
Qed.

Lemma be64_length n : length (DbUtil.be64 n) = 8.
Proof. reflexivity. Qed.

Lemma mkBlockKey_mod n m :
  DbUtil.mkBlockKey n = DbUtil.mkBlockKey m -> (n mod two64 = m mod two64)%N.
Proof.
  unfold DbUtil.mkBlockKey. intros E. apply app_inv_head in E.
  rewrite <- !be64_value_mod, E. reflexivity.
Qed.

Lemma Put_same db k v : Put db k v k = Some v.
Proof.
  unfold Put. destruct (list_eq_dec Byte.byte_eq_dec k k) as [_|NE]; [reflexivity|].
  exfalso. apply NE. reflexivity.
Qed.

Lemma Put_other db k v k' : k <> k' -> Put db k v k' = db k'.
Proof.
  intros NE. unfold Put. destruct (list_eq_dec Byte.byte_eq_dec k k') as [E|_]; [|reflexivity].
  exfalso. exact (NE E).
Qed.

Lemma stmtLookupKey_ne_block key n : DbUtil.mkBlockKey n <> Lookup.mkStmtLookupKey key.
Proof. unfold DbUtil.mkBlockKey, Lookup.mkStmtLookupKey. cbn. discriminate. Qed.

Lemma stmtLookupKey_ne_last key : DbUtil.lastBlockKey <> Lookup.mkStmtLookupKey key.
Proof. unfold DbUtil.lastBlockKey, Lookup.mkStmtLookupKey. cbn. discriminate. Qed.

(** [GetStmtLookupEntry] only reads the key of the statement. *)
Lemma GetStmtLookupEntry_ext db1 db2 key :
  db1 (Lookup.mkStmtLookupKey key) = db2 (Lookup.mkStmtLookupKey key) ->
  Lookup.GetStmtLookupEntry db1 key = Lookup.GetStmtLookupEntry db2 key.
Proof. intros E. unfold Lookup.GetStmtLookupEntry. now rewrite E. Qed.

Lemma entry_fields_roundtrip t e rest :
  (Lookup.BlockNumber e < two64)%N -> (Lookup.Index e < two64)%N ->
  Lookup.entry_fields t (Rlp.enc_uint (Lookup.BlockNumber e) ++ Rlp.enc_uint (Lookup.Index e) ++ rest)
  = (e, Ok rest).
Proof.
  intros H1 H2. unfold Lookup.entry_fields, Rlp.enc_uint.
  rewrite (then_field_step _ _ _ _ _ _ (field_step _ _ _ _ _ _ _ _
             (split_enc_string _ _ (fits_be_bytes _ H1)) (dec_uint64_be _ H1))).
  rewrite (field_step _ _ _ _ _ _ _ _ (split_enc_string _ _ (fits_be_bytes _ H2))
             (dec_uint64_be _ H2)).
  destruct e. reflexivity.
Qed.

Lemma entry_payload_fits e :
  (Lookup.BlockNumber e < two64)%N -> (Lookup.Index e < two64)%N ->
  fits (Rlp.enc_uint (Lookup.BlockNumber e) ++ Rlp.enc_uint (Lookup.Index e)).
Proof.
  intros H1 H2. unfold fits, Rlp.enc_uint. rewrite length_app.
  pose proof (enc_string_length_le _ (fits_be_bytes _ H1)).
  pose proof (enc_string_length_le _ (fits_be_bytes _ H2)).
  pose proof (be_bytes_length_64 _ H1). pose proof (be_bytes_length_64 _ H2).
  unfold two64. lia.
Qed.

Lemma DecodeBytes_entry t e rest :
  (Lookup.BlockNumber e < two64)%N -> (Lookup.Index e < two64)%N ->
  Lookup.DecodeBytes t (Lookup.entry_rlp e ++ rest) =
  (e, match rest with [] => None | _ :: _ => Some Lookup.ErrMoreThanOneValue end).
Proof.
  intros H1 H2. unfold Lookup.DecodeBytes, Lookup.entry_rlp.
  pose proof (entry_fields_roundtrip t e [] H1 H2) as F. rewrite app_nil_r in F.
  rewrite (decode_struct_step _ _ _ _ _ _ (split_enc_list _ _ (entry_payload_fits e H1 H2)) F).
  destruct rest; reflexivity.
Qed.

Lemma entry_fields_inv t c e rest :
  Lookup.entry_fields t c = (e, Ok rest) ->
  c = Rlp.enc_uint (Lookup.BlockNumber e) ++ Rlp.enc_uint (Lookup.Index e) ++ rest /\
  (Lookup.BlockNumber e < two64)%N /\ (Lookup.Index e < two64)%N.
Proof.
  unfold Lookup.entry_fields. intros H.
  apply then_field_inv in H as (t1 & c1 & H1 & H).
  apply field_inv in H1 as (k1 & v1 & a1 & S1 & D1 & ->).
  apply dec_uint64_inv in D1 as (-> & -> & L1). apply split_inv in S1 as (-> & _).
  apply field_inv in H as (k2 & v2 & a2 & S2 & D2 & ->).
  apply dec_uint64_inv in D2 as (-> & -> & L2). apply split_inv in S2 as (-> & _).
  cbn. auto.
Qed.

Lemma Block_wf_number b : Block_wf b -> (Blk.Number (Blk.header b) < two64)%N.
Proof. intros ((_ & _ & H & _) & _). exact H. Qed.

Lemma mkBlockKey_ne n m :
  (n < two64)%N -> (m < two64)%N -> m <> n -> DbUtil.mkBlockKey n <> DbUtil.mkBlockKey m.
Proof.
  intros Hn Hm NE E. apply mkBlockKey_mod in E.
  rewrite !N.mod_small in E by exact Hn || exact Hm. congruence.
Qed.

(* ------------------------------------------------------------------ *)
(** ** Keys and the store *)

(** [Block.EncodedNumber], the 8 bytes written after the prefix in a
    block's key by [mkBlockKey], is the big-endian form of the block
    number: 8 bytes whose big-endian value is the number. *)
Theorem EncodedNumber_big_endian (b : Blk.Block) (Hn : (Blk.Number (Blk.header b) < two64)%N) :
  length (BlockOps.EncodedNumber b) = 8 /\
  be_value (BlockOps.EncodedNumber b) = Blk.Number (Blk.header b).
Proof.
  unfold BlockOps.EncodedNumber. split; [apply be64_length|].
  rewrite be64_value_mod. apply N.mod_small. exact Hn.
Qed.

Lemma EncodedNumber_big_endian_witness :
  let b := {| Blk.header := Blk.set_Number Blk.zeroHeader 258; Blk.statements := [];
              Blk.hash := None; Blk.size := None |} in
  (Blk.Number (Blk.header b) < two64)%N /\
  (length (BlockOps.EncodedNumber b) = 8 /\
   be_value (BlockOps.EncodedNumber b) = Blk.Number (Blk.header b)).
Proof.
  intros b. assert (H : (Blk.Number (Blk.header b) < two64)%N) by (vm_compute; reflexivity).
  split; [exact H|]. exact (EncodedNumber_big_endian b H).
Defined.

(** Two block numbers of 64 bits have the same database key (from
    [mkBlockKey]) only when they are equal. *)
Theorem mkBlockKey_injective (n m : N) (Hn : (n < two64)%N) (Hm : (m < two64)%N) :
  DbUtil.mkBlockKey n = DbUtil.mkBlockKey m <-> n = m.
Proof.
  split; [|intros ->; reflexivity].
  intros E. apply mkBlockKey_mod in E. rewrite !N.mod_small in E by assumption. exact E.
Qed.

Lemma mkBlockKey_injective_witness :
  (1 < two64)%N /\ (256 < two64)%N /\ (DbUtil.mkBlockKey 1 = DbUtil.mkBlockKey 256 <-> 1%N = 256%N).
Proof.
  assert (H1 : (1 < two64)%N) by (vm_compute; reflexivity).
  assert (H2 : (256 < two64)%N) by (vm_compute; reflexivity).
  split; [exact H1|split; [exact H2|]]. exact (mkBlockKey_injective 1 256 H1 H2).
Defined.

(** [WriteBlock] of a block whose fields fit their encoding: [GetBlock] at
    the block's number then gives a block with the same header and
    statement contents and an empty hash cache; [GetBlock] at every other
    64-bit number, [GetStmtLookupEntry] at every key, and the head key are
    as before the write. *)
Theorem WriteBlock_GetBlock (db : Database) (b : Blk.Block) (W : Block_wf b) :
  let db' := fst (DbUtil.WriteBlock db b) in
  (exists b', DbUtil.GetBlock db' (Blk.Number (Blk.header b)) = Some b' /\
              Blk.header b' = Blk.header b /\
              map Stmt.kv (Blk.statements b') = map Stmt.kv (Blk.statements b) /\
              Blk.hash b' = None) /\
  (forall m, (m < two64)%N -> m <> Blk.Number (Blk.header b) ->
             DbUtil.GetBlock db' m = DbUtil.GetBlock db m) /\
  (forall key, Lookup.GetStmtLookupEntry db' key = Lookup.GetStmtLookupEntry db key) /\
  db' DbUtil.lastBlockKey = db DbUtil.lastBlockKey.
Proof.
  cbv zeta. unfold DbUtil.WriteBlock. cbn [fst].
  pose proof (Block_wf_number b W) as Hn.
  split; [|split; [|split]].
  - exact (GetBlock_encoded _ _ b W (Put_same _ _ _)).
  - intros m Hm NE. apply GetBlock_ext, Put_other, mkBlockKey_ne; assumption.
  - intros key. apply GetStmtLookupEntry_ext, Put_other, stmtLookupKey_ne_block.
  - apply Put_other. intros E. exact (lastBlockKey_ne _ (eq_sym E)).
Qed.

Lemma WriteBlock_GetBlock_witness :
  Block_wf (@Genesis.NewBlock ToyCrypto 1 0) /\
  (let db' := fst (DbUtil.WriteBlock (fun _ => None) (@Genesis.NewBlock ToyCrypto 1 0)) in
   (exists b', DbUtil.GetBlock db' (Blk.Number (Blk.header (@Genesis.NewBlock ToyCrypto 1 0))) = Some b' /\
               Blk.header b' = Blk.header (@Genesis.NewBlock ToyCrypto 1 0) /\
               map Stmt.kv (Blk.statements b') =
                 map Stmt.kv (Blk.statements (@Genesis.NewBlock ToyCrypto 1 0)) /\
               Blk.hash b' = None) /\
   (forall m, (m < two64)%N -> m <> Blk.Number (Blk.header (@Genesis.NewBlock ToyCrypto 1 0)) ->
              DbUtil.GetBlock db' m = DbUtil.GetBlock (fun _ => None) m) /\
   (forall key, Lookup.GetStmtLookupEntry db' key = Lookup.GetStmtLookupEntry (fun _ => None) key) /\
   db' DbUtil.lastBlockKey = None).
Proof.
  assert (W : Block_wf (@Genesis.NewBlock ToyCrypto 1 0)).
  { split; [vm_compute; repeat split|split; [constructor|vm_compute; reflexivity]]. }
  split; [exact W|]. exact (WriteBlock_GetBlock (fun _ => None) _ W).
Defined.

(** [WriteLastObserverBlockHash] stores the hash under the head key and
    changes no block read by [GetBlock] and no entry read by
    [GetStmtLookupEntry]. *)
Theorem WriteLastObserverBlockHash_head_only (db : Database) (h : Hash) :
  let db' := fst (DbUtil.WriteLastObserverBlockHash db h) in
  db' DbUtil.lastBlockKey = Some h /\
  (forall n, DbUtil.GetBlock db' n = DbUtil.GetBlock db n) /\
  (forall key, Lookup.GetStmtLookupEntry db' key = Lookup.GetStmtLookupEntry db key).
Proof.
  cbv zeta. unfold DbUtil.WriteLastObserverBlockHash. cbn [fst].
  split; [apply Put_same|split].
  - intros n. apply GetBlock_ext, Put_other, lastBlockKey_ne.
  - intros key. apply GetStmtLookupEntry_ext, Put_other, stmtLookupKey_ne_last.
Qed.

(* ------------------------------------------------------------------ *)
(** ** Statement lookup entries *)

(** [GetStmtLookupEntry] gives back the two numbers of an entry stored
    under the statement's key as the encoding of a [StmtLookupEntry] with
    64-bit fields, with [true]. *)
Theorem GetStmtLookupEntry_roundtrip (db : Database) (key : bytes) (e : Lookup.StmtLookupEntry)
    (H1 : (Lookup.BlockNumber e < two64)%N) (H2 : (Lookup.Index e < two64)%N)
    (Hd : db (Lookup.mkStmtLookupKey key) = Some (Lookup.entry_rlp e)) :
  Lookup.GetStmtLookupEntry db key = (Lookup.BlockNumber e, Lookup.Index e, true).
Proof.
  unfold Lookup.GetStmtLookupEntry. rewrite Hd.
  pose proof (DecodeBytes_entry {| Lookup.BlockNumber := 0; Lookup.Index := 0 |} e [] H1 H2) as D.
  rewrite app_nil_r in D.
  destruct (Lookup.entry_rlp e) as [|x d] eqn:Ee.
  { exfalso. exact (enc_list_nonempty _ Ee). }
  rewrite D. reflexivity.
Qed.

Lemma GetStmtLookupEntry_roundtrip_witness :
  let e := {| Lookup.BlockNumber := 3; Lookup.Index := 300 |} in
  let db := Put (fun _ => None) (Lookup.mkStmtLookupKey (list_byte_of_string "foo"))
                (Lookup.entry_rlp e) in
  (Lookup.BlockNumber e < two64)%N /\ (Lookup.Index e < two64)%N /\
  db (Lookup.mkStmtLookupKey (list_byte_of_string "foo")) = Some (Lookup.entry_rlp e) /\
  Lookup.GetStmtLookupEntry db (list_byte_of_string "foo") =
    (Lookup.BlockNumber e, Lookup.Index e, true).
Proof.
  intros e db.
  assert (H1 : (Lookup.BlockNumber e < two64)%N) by (vm_compute; reflexivity).
  assert (H2 : (Lookup.Index e < two64)%N) by (vm_compute; reflexivity).
  assert (Hd : db (Lookup.mkStmtLookupKey (list_byte_of_string "foo")) = Some (Lookup.entry_rlp e))
    by (vm_compute; reflexivity).
  split; [exact H1|split; [exact H2|split; [exact Hd|]]].
  exact (GetStmtLookupEntry_roundtrip db _ e H1 H2 Hd).
Defined.

(** When [GetStmtLookupEntry] reports an entry found, the store holds under
    the statement's key exactly the encoding of an entry with those two
    numbers, each of 64 bits, and nothing after it. *)
Theorem GetStmtLookupEntry_sound (db : Database) (key : bytes) (a i : N)
    (H : Lookup.GetStmtLookupEntry db key = (a, i, true)) :
  db (Lookup.mkStmtLookupKey key) =
    Some (Lookup.entry_rlp {| Lookup.BlockNumber := a; Lookup.Index := i |}) /\
  (a < two64)%N /\ (i < two64)%N.
Proof.
  revert H. unfold Lookup.GetStmtLookupEntry.
  destruct (db (Lookup.mkStmtLookupKey key)) as [[|x d]|]; try discriminate.
  unfold Lookup.DecodeBytes.
  destruct (Rlp.decode_struct Lookup.entry_fields _ (x :: d)) as [e [[|y r]|err]] eqn:D;
    try discriminate.
  intros E. injection E as <- <-.
  apply decode_struct_inv in D as (c & Sc & F).
  apply entry_fields_inv in F as (Ec & L1 & L2). rewrite app_nil_r in Ec. subst c.
  apply split_inv in Sc as (Ex & _). rewrite app_nil_r in Ex. rewrite Ex.
  destruct e. auto.
Qed.

Lemma GetStmtLookupEntry_sound_witness :
  let e := {| Lookup.BlockNumber := 3; Lookup.Index := 300 |} in
  let db := Put (fun _ => None) (Lookup.mkStmtLookupKey (list_byte_of_string "foo"))
                (Lookup.entry_rlp e) in
  Lookup.GetStmtLookupEntry db (list_byte_of_string "foo") = (3%N, 300%N, true) /\
  (db (Lookup.mkStmtLookupKey (list_byte_of_string "foo")) =
     Some (Lookup.entry_rlp {| Lookup.BlockNumber := 3; Lookup.Index := 300 |}) /\
   (3 < two64)%N /\ (300 < two64)%N).
Proof.
  intros e db.
  assert (H : Lookup.GetStmtLookupEntry db (list_byte_of_string "foo") = (3%N, 300%N, true))
    by (vm_compute; reflexivity).
  split; [exact H|]. exact (GetStmtLookupEntry_sound db _ 3 300 H).
Defined.

(** [GetStmtLookupEntry] gives [(0, 0, false)] for a missing key, for empty
    data, and for the encoding of an entry followed by more bytes
    ([rlp.DecodeBytes] refuses input left after the value). *)
Theorem GetStmtLookupEntry_rejects (db : Database) (key : bytes) :
  (db (Lookup.mkStmtLookupKey key) = None -> Lookup.GetStmtLookupEntry db key = (0%N, 0%N, false)) /\
  (db (Lookup.mkStmtLookupKey key) = Some [] ->
   Lookup.GetStmtLookupEntry db key = (0%N, 0%N, false)) /\
  (forall e x rest, (Lookup.BlockNumber e < two64)%N -> (Lookup.Index e < two64)%N ->
   db (Lookup.mkStmtLookupKey key) = Some (Lookup.entry_rlp e ++ x :: rest) ->
   Lookup.GetStmtLookupEntry db key = (0%N, 0%N, false)).
Proof.
  split; [|split].
  - intros E. unfold Lookup.GetStmtLookupEntry. now rewrite E.
  - intros E. unfold Lookup.GetStmtLookupEntry. now rewrite E.
  - intros e x rest H1 H2 E. unfold Lookup.GetStmtLookupEntry. rewrite E.
    rewrite (DecodeBytes_entry _ e (x :: rest) H1 H2).
    destruct (Lookup.entry_rlp e ++ x :: rest) as [|y d] eqn:Ed; reflexivity.
Qed.

Lemma GetBlock_encoded_rest db n b rest :
  Block_wf b -> db (DbUtil.mkBlockKey n) = Some (Blk.EncodeRLP b ++ rest) ->
  exists b', DbUtil.GetBlock db n = Some b' /\ Blk.header b' = Blk.header b /\
             map Stmt.kv (Blk.statements b') = map Stmt.kv (Blk.statements b) /\
             Blk.hash b' = None.
Proof.
  intros W Hd. unfold DbUtil.GetBlock. rewrite Hd.
  destruct (Blk_DecodeRLP_roundtrip Blk.zero b rest W) as (b' & E & Eh & Es & Ehs).
  destruct (Blk.EncodeRLP b ++ rest) as [|x d] eqn:Eb.
  { unfold Blk.EncodeRLP in Eb. apply app_eq_nil in Eb as (Eb & _).
    exfalso. exact (enc_list_nonempty _ Eb). }
  rewrite E. exists b'. auto.
Qed.

(** Unlike [GetStmtLookupEntry], [GetBlock] reads one value from the stored
    data ([rlp.Decode] on a reader) and ignores what follows it: data that
    is the encoding of a block followed by any bytes gives a block with the
    same header and statement contents. *)
Theorem GetBlock_ignores_trailing (db : Database) (n : N) (b : Blk.Block) (rest : bytes)
    (W : Block_wf b) (Hd : db (DbUtil.mkBlockKey n) = Some (Blk.EncodeRLP b ++ rest)) :
  exists b', DbUtil.GetBlock db n = Some b' /\ Blk.header b' = Blk.header b /\
             map Stmt.kv (Blk.statements b') = map Stmt.kv (Blk.statements b).
Proof.
  destruct (GetBlock_encoded_rest db n b rest W Hd) as (b' & G & Eh & Es & _).
  exists b'. auto.
Qed.

Lemma GetBlock_ignores_trailing_witness :
  let b := @Genesis.NewBlock ToyCrypto 1 0 in
  let db := Put (fun _ => None) (DbUtil.mkBlockKey 0) (Blk.EncodeRLP b ++ [x01; x02]) in
  Block_wf b /\ db (DbUtil.mkBlockKey 0) = Some (Blk.EncodeRLP b ++ [x01; x02]) /\
  (exists b', DbUtil.GetBlock db 0 = Some b' /\ Blk.header b' = Blk.header b /\
              map Stmt.kv (Blk.statements b') = map Stmt.kv (Blk.statements b)).
Proof.
  intros b db.
  assert (W : Block_wf b)
    by (split; [vm_compute; repeat split|split; [constructor|vm_compute; reflexivity]]).
  assert (Hd : db (DbUtil.mkBlockKey 0) = Some (Blk.EncodeRLP b ++ [x01; x02]))
    by (vm_compute; reflexivity).
  split; [exact W|split; [exact Hd|]]. exact (GetBlock_ignores_trailing db 0 b _ W Hd).
Defined.

(** A block returned by [GetBlock] is one whose encoding starts the stored
    data: its hashes are 32 bytes, its number and time fit in 64 bits, and
    its hash cache is empty. *)
Theorem GetBlock_sound (db : Database) (n : N) (b : Blk.Block)
    (H : DbUtil.GetBlock db n = Some b) :
  (exists rest, db (DbUtil.mkBlockKey n) = Some (Blk.EncodeRLP b ++ rest)) /\
  length (Blk.PrevHash (Blk.header b)) = 32 /\ length (Blk.StmtsRoot (Blk.header b)) = 32 /\
  (Blk.Number (Blk.header b) < two64)%N /\ (Blk.Time (Blk.header b) < two64)%N /\
  Blk.hash b = None.
Proof.
  apply GetBlock_inv in H as (rest & Hd & ((L1 & L2 & N1 & N2 & _) & _) & Hh).
  split; [eauto|auto].
Qed.

Lemma GetBlock_sound_witness :
  let db := Put (fun _ => None) (DbUtil.mkBlockKey 0)
              (Blk.EncodeRLP (@Genesis.NewBlock ToyCrypto 1 0)) in
  exists b, DbUtil.GetBlock db 0 = Some b /\
  ((exists rest, db (DbUtil.mkBlockKey 0) = Some (Blk.EncodeRLP b ++ rest)) /\
   length (Blk.PrevHash (Blk.header b)) = 32 /\ length (Blk.StmtsRoot (Blk.header b)) = 32 /\
   (Blk.Number (Blk.header b) < two64)%N /\ (Blk.Time (Blk.header b) < two64)%N /\
   Blk.hash b = None).
Proof.
  intros db. destruct (DbUtil.GetBlock db 0) as [b|] eqn:H; [|vm_compute in H; discriminate H].
  exists b. split; [reflexivity|]. exact (GetBlock_sound db 0 b H).
Defined.

(* ------------------------------------------------------------------ *)
(** ** Sizes and hash caches after decoding *)

Lemma ListSize_enc_list p : Stmt.ListSize (length p) = N.of_nat (length (Rlp.enc_list p)).
Proof. unfold Stmt.ListSize, Rlp.enc_list. rewrite length_app. reflexivity. Qed.

(** A successful [Block.DecodeRLP] consumes exactly the encoding of the
    block it produces, and the size it caches is the length of that
    encoding: [Size] then gives what it computes on a block with no cached
    size. *)
Theorem Block_DecodeRLP_Size (b0 : Blk.Block) (data : bytes) (b : Blk.Block) (rest : bytes)
    (H : Blk.DecodeRLP b0 data = (b, Ok rest)) :
  data = Blk.EncodeRLP b ++ rest /\
  fst (BlockOps.Size b) = N.of_nat (length (Blk.EncodeRLP b)).
Proof.
  pose proof H as H'. apply Blk_DecodeRLP_inv in H' as (Ed & (_ & _ & Fp) & _).
  split; [exact Ed|].
  revert H. unfold Blk.DecodeRLP. rewrite Ed. unfold Blk.EncodeRLP at 1.
  rewrite (split_enc_list _ _ Fp). cbv zeta.
  destruct (Rlp.decode_struct _ _ _) as [enc [r|e]]; [|discriminate].
  intros E. injection E as Hb _.
  pose proof (f_equal Blk.size Hb) as Hs. cbn [Blk.size] in Hs.
  unfold BlockOps.Size. rewrite <- Hs. cbn [fst]. rewrite ListSize_enc_list. reflexivity.
Qed.

Lemma Block_DecodeRLP_Size_witness :
  let data := Blk.EncodeRLP (@Genesis.NewBlock ToyCrypto 1 0) in
  exists b, Blk.DecodeRLP Blk.zero data = (b, Ok []) /\
  (data = Blk.EncodeRLP b ++ [] /\ fst (BlockOps.Size b) = N.of_nat (length (Blk.EncodeRLP b))).
Proof.
  intros data. destruct (Blk.DecodeRLP Blk.zero data) as [b r] eqn:H.
  assert (Hr : r = Ok []) by (vm_compute in H; injection H as _ <-; reflexivity).
  subst r. exists b. split; [reflexivity|]. exact (Block_DecodeRLP_Size Blk.zero data b [] H).
Defined.

(** A successful [Statement.DecodeRLP] consumes exactly the encoding of the
    statement it produces, and the size it caches is the length of that
    encoding, as [Size] computes it on a statement with no cached size. *)
Theorem Statement_DecodeRLP_Size (s0 : Stmt.Statement) (data : bytes) (s : Stmt.Statement)
    (rest : bytes) (H : Stmt.DecodeRLP s0 data = (s, Ok rest)) :
  data = Stmt.EncodeRLP s ++ rest /\
  fst (BlockOps.StmtSize s) = N.of_nat (length (Stmt.EncodeRLP s)).
Proof.
  pose proof H as H'. apply Stmt_DecodeRLP_inv in H' as (Ed & W).
  split; [exact Ed|].
  revert H. unfold Stmt.DecodeRLP. rewrite Ed. unfold Stmt.EncodeRLP at 1.
  rewrite kv_rlp_payload, (split_enc_list _ _ W). cbv zeta.
  destruct (Rlp.decode_struct _ _ _) as [x [r|e]]; [|discriminate].
  intros E. injection E as Hs _.
  pose proof (f_equal Stmt.size Hs) as Hz. cbn [Stmt.size] in Hz.
  unfold BlockOps.StmtSize. rewrite <- Hz. cbn [fst].
  unfold Stmt.EncodeRLP. rewrite kv_rlp_payload, ListSize_enc_list. reflexivity.
Qed.

Lemma Statement_DecodeRLP_Size_witness :
  let data := Stmt.EncodeRLP (Stmt.NewStatement (list_byte_of_string "foo")
                                                (list_byte_of_string "bar")) in
  exists s, Stmt.DecodeRLP Stmt.zero data = (s, Ok []) /\
  (data = Stmt.EncodeRLP s ++ [] /\
   fst (BlockOps.StmtSize s) = N.of_nat (length (Stmt.EncodeRLP s))).
Proof.
  intros data. destruct (Stmt.DecodeRLP Stmt.zero data) as [s r] eqn:H.
  assert (Hr : r = Ok []) by (vm_compute in H; injection H as _ <-; reflexivity).
  subst r. exists s. split; [reflexivity|]. exact (Statement_DecodeRLP_Size Stmt.zero data s [] H).
Defined.

Section DecodeCaches.
Context {C : Crypto}.

(** Decoding into a block or a statement whose hash was already computed
    keeps that cached hash: [Hash()] afterwards returns it, whatever was
    decoded ([Block.DecodeRLP] when it succeeds, [Statement.DecodeRLP]
    whether or not it succeeds). *)
Theorem DecodeRLP_keeps_hash_cache (h : Hash) :
  (forall b0 data b rest, Blk.hash b0 = Some h -> Blk.DecodeRLP b0 data = (b, Ok rest) ->
                          fst (Blk.HashOf b) = h) /\
  (forall s0 data s r, Stmt.hash s0 = Some h -> Stmt.DecodeRLP s0 data = (s, r) ->
                       fst (Stmt.HashOf s) = h).
Proof.
  split.
  - intros b0 data b rest Hh H. apply Blk_DecodeRLP_inv in H as (_ & _ & E).
    unfold Blk.HashOf. rewrite E, Hh. reflexivity.
  - intros s0 data s r Hh. unfold Stmt.DecodeRLP.
    destruct (Rlp.decode_struct _ _ _) as [x [rest|e]]; intros E; injection E as <- _;
      unfold Stmt.HashOf; cbn; rewrite Hh; reflexivity.
Qed.

(** Decoding the encoding of a key/value (whose encoding fits the rlp size
    limits) into a statement with no cached hash gives a statement with
    the same key and value, whose [Hash()] is the keccak256 of that
    encoding and whose [Size()] is its length. *)
Theorem Statement_roundtrip (x : Stmt.keyValue) (s : Stmt.Statement)
    (W : kv_wf x) (Hs : Stmt.hash s = None) :
  exists s', Stmt.DecodeRLP s (Stmt.kv_rlp x) = (s', Ok []) /\
             Stmt.KeyOf s' = Stmt.Key x /\ Stmt.ValueOf s' = Stmt.Value x /\
             fst (Stmt.HashOf s') = Keccak256 (Stmt.kv_rlp x) /\
             fst (BlockOps.StmtSize s') = N.of_nat (length (Stmt.kv_rlp x)).
Proof.
  pose proof (Stmt_DecodeRLP_roundtrip s x [] W) as (s' & D & Ek). rewrite app_nil_r in D.
  exists s'. split; [exact D|].
  assert (Hh : Stmt.hash s' = None).
  { revert D. unfold Stmt.DecodeRLP.
    destruct (Rlp.decode_struct _ _ _) as [y [rest|e]]; intros E; injection E as <- _;
      exact Hs. }
  destruct (Statement_DecodeRLP_Size s _ s' [] D) as (_ & Sz).
  unfold Stmt.KeyOf, Stmt.ValueOf, Stmt.EncodeRLP in *. rewrite Ek in *.
  split; [reflexivity|split; [reflexivity|split; [|exact Sz]]].
  unfold Stmt.HashOf. rewrite Hh. cbn. unfold Stmt.EncodeRLP. rewrite Ek. reflexivity.
Qed.

End DecodeCaches.

Lemma Statement_roundtrip_witness :
  let x := Stmt.kv (Stmt.NewStatement (list_byte_of_string "foo") (list_byte_of_string "bar")) in
  kv_wf x /\ Stmt.hash Stmt.zero = None /\
  exists s', Stmt.DecodeRLP Stmt.zero (Stmt.kv_rlp x) = (s', Ok []) /\
             Stmt.KeyOf s' = Stmt.Key x /\ Stmt.ValueOf s' = Stmt.Value x /\
             fst (@Stmt.HashOf ToyCrypto s') = @Keccak256 ToyCrypto (Stmt.kv_rlp x) /\
             fst (BlockOps.StmtSize s') = N.of_nat (length (Stmt.kv_rlp x)).
Proof.
  intros x. assert (W : kv_wf x) by (vm_compute; reflexivity).
  split; [exact W|split; [reflexivity|]].
  exact (@Statement_roundtrip ToyCrypto x Stmt.zero W eq_refl).
Defined.

(* ------------------------------------------------------------------ *)
(** ** Looking up a statement of a block by its hash *)

Section StatementLookup.
Context {C : Crypto}.

Lemma Stmt_HashOf_snd s :
  stmt_hash (snd (Stmt.HashOf s)) = stmt_hash s /\ Stmt.kv (snd (Stmt.HashOf s)) = Stmt.kv s.
Proof.
  unfold stmt_hash, Stmt.HashOf.
  destruct (Stmt.hash s) as [h|] eqn:E; cbn; [rewrite E|]; split; reflexivity.
Qed.

Lemma find_statement_spec key sts :
  let (r, sts') := BlockOps.find_statement key sts in
  match r with
  | Some s => exists pre x suf, sts = pre ++ x :: suf /\
                Forall (fun p => stmt_hash p <> key) pre /\
                stmt_hash x = key /\ s = snd (Stmt.HashOf x)
  | None => Forall (fun p => stmt_hash p <> key) sts
  end /\
  map Stmt.kv sts' = map Stmt.kv sts /\ map stmt_hash sts' = map stmt_hash sts.
Proof.
  induction sts as [|s sts IH]; [repeat split; constructor|].
  cbn [BlockOps.find_statement].
  pose proof (Stmt_HashOf_snd s) as (E1 & E2).
  assert (Eh : fst (Stmt.HashOf s) = stmt_hash s) by reflexivity.
  destruct (Stmt.HashOf s) as [h s1] eqn:E. cbn [fst snd] in E1, E2, Eh. subst h.
  destruct (list_eq_dec Byte.byte_eq_dec (stmt_hash s) key) as [Ek|Nk].
  - split; [exists [], s, sts; rewrite E; repeat split; auto|].
    cbn [map]. rewrite E1, E2. auto.
  - destruct (BlockOps.find_statement key sts) as [r sts'].
    destruct IH as (IHr & IHk & IHh).
    split; [|cbn [map]; rewrite E1, E2, IHk, IHh; auto].
    destruct r as [s'|].
    + destruct IHr as (pre & x & suf & -> & Fp & Hx & ->).
      exists (s :: pre), x, suf. repeat split; auto.
    + constructor; auto.
Qed.

(** [Block.Statement(key)] returns the first statement of the block whose
    [Hash()] is [key] (after filling its hash cache), and nil exactly when
    no statement has that hash; the call changes neither the header nor the
    contents nor the hashes of the block's statements. *)
Theorem Block_Statement_first_match (b : Blk.Block) (key : Hash) :
  let (r, b') := BlockOps.Statement b key in
  match r with
  | Some s => exists pre x suf, Blk.statements b = pre ++ x :: suf /\
                Forall (fun p => fst (Stmt.HashOf p) <> key) pre /\
                fst (Stmt.HashOf x) = key /\ Stmt.kv s = Stmt.kv x /\ s = snd (Stmt.HashOf x)
  | None => Forall (fun p => fst (Stmt.HashOf p) <> key) (Blk.statements b)
  end /\
  Blk.header b' = Blk.header b /\
  map Stmt.kv (Blk.statements b') = map Stmt.kv (Blk.statements b) /\
  map (fun p => fst (Stmt.HashOf p)) (Blk.statements b') =
    map (fun p => fst (Stmt.HashOf p)) (Blk.statements b).
Proof.
  unfold BlockOps.Statement.
  pose proof (find_statement_spec key (Blk.statements b)) as F.
  destruct (BlockOps.find_statement key (Blk.statements b)) as [r sts'].
  destruct F as (Fr & Fk & Fh). cbn [Blk.header Blk.statements].
  split; [|auto].
  destruct r as [s|]; [|exact Fr].
  destruct Fr as (pre & x & suf & E & Fp & Hx & ->).
  exists pre, x, suf. repeat split; auto. apply Stmt_HashOf_snd.
Qed.

End StatementLookup.

(* ------------------------------------------------------------------ *)
(** ** Signing *)

Section Signing.
Context {C : Crypto}.

(** [Header.sign] and [blockData.sign] (les/observer block.go) depend only
    on the fields other than the signature: two headers that differ only
    in their signature get the same signed header, the signed header keeps
    all other fields, and signing again with the same key changes
    nothing. *)
Theorem sign_ignores_signature (key : N) (h : Blk.Header) (d : Data.blockData) :
  (forall h', Blk.unsignedData h' = Blk.unsignedData h -> Blk.sign h' key = Blk.sign h key) /\
  Blk.unsignedData (Blk.sign h key) = Blk.unsignedData h /\
  Blk.sign (Blk.sign h key) key = Blk.sign h key /\
  (forall d', Data.unsignedData d' = Data.unsignedData d -> Data.sign d' key = Data.sign d key) /\
  Data.unsignedData (Data.sign d key) = Data.unsignedData d /\
  Data.sign (Data.sign d key) key = Data.sign d key.
Proof.
  assert (Hh : forall h1 h2, Blk.unsignedData h1 = Blk.unsignedData h2 ->
                             Blk.sign h1 key = Blk.sign h2 key).
  { intros [] [] E. unfold Blk.unsignedData in E. cbn in E. injection E as -> -> -> -> ->.
    reflexivity. }
  assert (Hd : forall d1 d2, Data.unsignedData d1 = Data.unsignedData d2 ->
                             Data.sign d1 key = Data.sign d2 key).
  { intros [] [] E. unfold Data.unsignedData in E. cbn in E. injection E as -> -> -> -> ->.
    reflexivity. }
  assert (Uh : Blk.unsignedData (Blk.sign h key) = Blk.unsignedData h) by (destruct h; reflexivity).
  assert (Ud : Data.unsignedData (Data.sign d key) = Data.unsignedData d) by (destruct d; reflexivity).
  split; [intros h' E; exact (Hh _ _ E)|split; [exact Uh|split; [exact (Hh _ _ Uh)|]]].
  split; [intros d' E; exact (Hd _ _ E)|split; [exact Ud|exact (Hd _ _ Ud)]].
Qed.

End Signing.

(* ------------------------------------------------------------------ *)
(** ** The trie lock over sequences of calls *)

Section LockSequences.
Context {C : Crypto}.

Lemma run_locked db o cs :
  Chain.trieStatus o <> None -> Chain.trieStatus o <> Some Chain.unlocked ->
  LockCalls.run db o cs =
  (o, repeat (Err Chain.ErrTrieIsAlreadyLocked) (length (filter LockCalls.is_lock cs))).
Proof.
  intros H1 H2. induction cs as [|c cs IH]; [reflexivity|].
  assert (HL : Chain.LockAndGetTrie db o = (o, Err Chain.ErrTrieIsAlreadyLocked)).
  { unfold Chain.LockAndGetTrie.
    destruct (Chain.trieStatus o) as [[| |]|]; congruence. }
  assert (HU : Chain.UnlockTrie o = o).
  { unfold Chain.UnlockTrie. destruct (Chain.trieStatus o) as [[| |]|]; reflexivity. }
  destruct c; cbn [LockCalls.run filter LockCalls.is_lock].
  - rewrite HL, IH. reflexivity.
  - rewrite HU. exact IH.
Qed.

(** Once [LockAndGetTrie] has been called on a chain, whether or not it
    succeeded, the trie stays locked: in any later sequence of
    [LockAndGetTrie] and [UnlockTrie] calls, every [LockAndGetTrie] fails
    with [ErrTrieIsAlreadyLocked] and the chain is left unchanged. *)
Theorem LockAndGetTrie_locks_for_good (db : Database) (o : Chain.Chain) (cs : list LockCalls.call) :
  let (o1, _) := Chain.LockAndGetTrie db o in
  LockCalls.run db o1 cs =
  (o1, repeat (Err Chain.ErrTrieIsAlreadyLocked) (length (filter LockCalls.is_lock cs))).
Proof.
  unfold Chain.LockAndGetTrie.
  destruct (Chain.trieStatus o) as [[| |]|] eqn:E.
  - apply run_locked; congruence.
  - destruct (Trie.New _ db); apply run_locked; cbn; congruence.
  - apply run_locked; congruence.
  - destruct (Trie.New _ db); apply run_locked; cbn; congruence.
Qed.

End LockSequences.

(* ------------------------------------------------------------------ *)
(** ** Building the chain *)

Section ChainFacts.
Context {C : Crypto}.

(** Whatever the store, [NewChain] succeeds with the first block as the
    current block and the trie unlocked; afterwards [Block(0)] and [Block]
    at the first block's number both return a block with the first block's
    header, and the head key holds the first block's hash. *)
Theorem NewChain_first_block_readable (db : Database) (key : N) (now : Z) :
  exists db1 c,
    Chain.NewChain db key now = (db1, Ok (Some c)) /\
    Chain.currentBlock c = Chain.firstBlock c /\
    Chain.trieStatus c = Some Chain.unlocked /\
    (exists b, Chain.Block db1 c 0 = Ok b /\ Blk.header b = Blk.header (Chain.firstBlock c)) /\
    (exists b, Chain.Block db1 c (Blk.Number (Blk.header (Chain.firstBlock c))) = Ok b /\
               Blk.header b = Blk.header (Chain.firstBlock c)) /\
    db1 DbUtil.lastBlockKey = Some (fst (Blk.HashOf (Chain.firstBlock c))).
Proof.
  rewrite NewChain_eq. cbv zeta.
  pose proof (first_block_facts db key now) as F. cbv zeta in F.
  set (fb0 := match DbUtil.GetBlock db 0 with
              | Some b => b | None => Genesis.NewBlock key now end) in *.
  destruct F as (W & Hn & Hcase).
  set (db0 := Put db (DbUtil.mkBlockKey (Blk.Number (Blk.header fb0))) (Blk.EncodeRLP fb0)).
  set (db1 := Put db0 DbUtil.lastBlockKey (fst (Blk.HashOf fb0))).
  assert (Hk : forall n, db1 (DbUtil.mkBlockKey n) = db0 (DbUtil.mkBlockKey n))
    by (intros n; apply Put_other, lastBlockKey_ne).
  eexists db1, _. split; [reflexivity|]. cbn [Chain.firstBlock Chain.currentBlock Chain.trieStatus].
  rewrite HashOf_header, HashOf_snd.
  split; [reflexivity|split; [reflexivity|split; [|split]]].
  - unfold Chain.Block.
    destruct (list_eq_dec Byte.byte_eq_dec (DbUtil.mkBlockKey (Blk.Number (Blk.header fb0)))
                          (DbUtil.mkBlockKey 0)) as [Ek|Nk].
    + assert (Hd : db1 (DbUtil.mkBlockKey 0) = Some (Blk.EncodeRLP fb0))
        by (rewrite Hk; unfold db0; rewrite <- Ek; apply Put_same).
      destruct (GetBlock_encoded db1 0 fb0 W Hd) as (b' & G & Eh & _). rewrite G. eauto.
    + assert (Hd : db1 (DbUtil.mkBlockKey 0) = db (DbUtil.mkBlockKey 0))
        by (rewrite Hk; unfold db0; apply Put_other, Nk).
      rewrite (GetBlock_ext db1 db 0 Hd).
      destruct Hcase as [G|[_ Hz]]; [rewrite G; eauto|].
      exfalso. apply Nk. now rewrite Hz.
  - unfold Chain.Block.
    assert (Hd : db1 (DbUtil.mkBlockKey (Blk.Number (Blk.header fb0))) = Some (Blk.EncodeRLP fb0))
      by (rewrite Hk; apply Put_same).
    destruct (GetBlock_encoded db1 _ fb0 W Hd) as (b' & G & Eh & _). rewrite G. eauto.
  - apply Put_same.
Qed.

(** When the store already holds a block under the key of block 0,
    [NewChain] takes that block as the first block as it is, whatever its
    number, the key and the time: it has that block's header and
    statements, and it is written back under the key of its own number. *)
Theorem NewChain_reuses_block0 (db : Database) (b : Blk.Block) (key : N) (now : Z)
    (H : DbUtil.GetBlock db 0 = Some b) :
  exists db1 c,
    Chain.NewChain db key now = (db1, Ok (Some c)) /\
    Blk.header (Chain.firstBlock c) = Blk.header b /\
    Blk.statements (Chain.firstBlock c) = Blk.statements b /\
    db1 (DbUtil.mkBlockKey (Blk.Number (Blk.header b))) = Some (Blk.EncodeRLP b).
Proof.
  rewrite NewChain_eq. cbv zeta. rewrite H.
  eexists _, _. split; [reflexivity|]. cbn [Chain.firstBlock].
  rewrite HashOf_header. split; [reflexivity|split].
  - unfold Blk.HashOf. destruct (Blk.hash b); reflexivity.
  - rewrite Put_other by apply lastBlockKey_ne. apply Put_same.
Qed.

End ChainFacts.

Lemma NewChain_reuses_block0_witness :
  exists b, DbUtil.GetBlock store_with_block5_at_0 0 = Some b /\
  Blk.Number (Blk.header b) = 5%N /\
  exists db1 c,
    @Chain.NewChain ToyCrypto store_with_block5_at_0 2 7 = (db1, Ok (Some c)) /\
    Blk.header (Chain.firstBlock c) = Blk.header b /\
    Blk.statements (Chain.firstBlock c) = Blk.statements b /\
    db1 (DbUtil.mkBlockKey (Blk.Number (Blk.header b))) = Some (Blk.EncodeRLP b).
Proof.
  destruct (DbUtil.GetBlock store_with_block5_at_0 0) as [b|] eqn:H;
    [|vm_compute in H; discriminate H].
  exists b. split; [reflexivity|]. split; [vm_compute in H; injection H as <-; reflexivity|].
  exact (@NewChain_reuses_block0 ToyCrypto store_with_block5_at_0 b 2 7 H).
Defined.

(* ------------------------------------------------------------------ *)
(** ** The cache of committed tries *)

Lemma scan_back_spec hp r l :
  match TrieDB.scan_back hp r l with
  | Some t => exists pre suf, l = pre ++ t :: suf /\ hp t = r /\ Forall (fun u => hp u <> r) pre
  | None => Forall (fun u => hp u <> r) l
  end.
Proof.
  induction l as [|u l IH]; cbn; [constructor|].
  destruct (list_eq_dec Byte.byte_eq_dec (hp u) r) as [E|NE].
  - exists [], l. auto.
  - destruct (TrieDB.scan_back hp r l) as [t|].
    + destruct IH as (pre & suf & -> & Ht & Fp). exists (u :: pre), suf. auto.
    + constructor; auto.
Qed.

Section TrieCache.
Context {C : Crypto}.

(** [OpenTrie] returns a copy of a cached trie only when its root hash is
    the requested root, and then the most recently pushed such trie (no
    later entry of [pastTries] has that root); it opens the root from the
    backing store exactly when no cached trie has that root. *)
Theorem OpenTrie_most_recent (hp : TrieDB.heap) (db : Database) (p : list TrieDB.loc) (root : Hash) :
  match TrieDB.OpenTrie hp db p root with
  | TrieDB.FromCache t => exists pre suf, p = pre ++ t :: suf /\ hp t = root /\
                                          Forall (fun u => hp u <> root) suf
  | TrieDB.FromStore r => r = Trie.New root db /\ Forall (fun u => hp u <> root) p
  end.
Proof.
  unfold TrieDB.OpenTrie. pose proof (scan_back_spec hp root (rev p)) as S.
  destruct (TrieDB.scan_back hp root (rev p)) as [t|].
  - destruct S as (pre & suf & E & Ht & Fp).
    exists (rev suf), (rev pre). split; [|split; [exact Ht|]].
    + rewrite <- (rev_involutive p), E, rev_app_distr. cbn. rewrite <- app_assoc. reflexivity.
    + apply Forall_rev. exact Fp.
  - split; [reflexivity|]. rewrite <- (rev_involutive p). apply Forall_rev. exact S.
Qed.

End TrieCache.

(** Starting from at most 12 cached tries, after successful commits of the
    tries [ts] ([cachedTrie.CommitTo] calling [pushTrie]) [pastTries] is
    the last 12 of the cached tries followed by [ts], in order. *)
Theorem pastTries_last_twelve (p ts : list TrieDB.loc) (Hp : length p <= TrieDB.maxPastTries) :
  TrieDB.commits p ts = skipn (length (p ++ ts) - 12) (p ++ ts).
Proof. rewrite TrieDBFacts.commits_lastn by exact Hp. reflexivity. Qed.

Lemma pastTries_last_twelve_witness :
  length [100; 101] <= TrieDB.maxPastTries /\
  TrieDB.commits [100; 101] (seq 0 15) =
    skipn (length ([100; 101] ++ seq 0 15) - 12) ([100; 101] ++ seq 0 15).
Proof.
  assert (Hp : length [100; 101] <= TrieDB.maxPastTries) by (simpl; unfold TrieDB.maxPastTries; lia).
  split; [exact Hp|]. exact (pastTries_last_twelve [100; 101] (seq 0 15) Hp).
Defined.

(* ------------------------------------------------------------------ *)
(** ** New blocks in the store *)

Lemma in_concat_length {A B} (f : A -> list B) x l :
  In x l -> length (f x) <= length (concat (map f l)).
Proof.
  induction l as [|y l IH]; [contradiction|]. cbn. rewrite length_app.
  intros [->|Hin]; [lia|]. specialize (IH Hin). lia.
Qed.

Lemma block_wf_of b :
  Header_wf (Blk.header b) -> length (Blk.Header_payload (Blk.header b)) <= 200 ->
  (N.of_nat (length (concat (map Stmt.EncodeRLP (Blk.statements b)))) + 256 < two64)%N ->
  Block_wf b.
Proof.
  intros Hw Lh Hs. pose proof Hw as (_ & _ & _ & _ & Fh).
  split; [exact Hw|split].
  - apply Forall_forall. intros s Hin.
    pose proof (in_concat_length Stmt.EncodeRLP s _ Hin) as L.
    change (Stmt.EncodeRLP s) with (Stmt.kv_rlp (Stmt.kv s)) in L.
    rewrite kv_rlp_payload in L.
    pose proof (Nat.le_trans _ _ _ (enc_list_length (kv_payload (Stmt.kv s))) L) as L'.
    clear L. assert (L : length (kv_payload (Stmt.kv s))
                         <= length (concat (map Stmt.EncodeRLP (Blk.statements b))))
      by exact L'.
    clear L'. unfold kv_wf, fits, two64 in *. lia.
  - assert (Fc : fits (concat (map Stmt.EncodeRLP (Blk.statements b))))
      by (unfold fits, two64 in *; lia).
    unfold fits, Blk.encBlock_payload, Blk.Header_rlp. rewrite length_app.
    pose proof (enc_list_length_le _ Fh). pose proof (enc_list_length_le _ Fc).
    unfold two64 in *. lia.
Qed.

Section NewBlocks.
Context {C : Crypto}.

Lemma stmts_root_length (HK : forall x, length (Keccak256 x) = 32) sts :
  length (Blk.stmts_root sts) = 32.
Proof.
  destruct sts as [|s sts].
  - apply HK.
  - unfold Blk.stmts_root, DeriveSha. rewrite TrieHash_branch; [apply HK|].
    apply TrieFacts.DeriveSha_aux_branch.
    + left. split; [reflexivity|]. rewrite Statements_rlps_map. discriminate.
    + rewrite Statements_rlps_map. apply Forall_forall. intros v Hv.
      apply in_map_iff in Hv as (x & <- & _).
      unfold Stmt.EncodeRLP. rewrite kv_rlp_payload. apply enc_list_nonempty.
Qed.

Lemma signed_header_wf key h0 :
  length (Blk.PrevHash h0) = 32 -> length (Blk.StmtsRoot h0) = 32 ->
  (Blk.Number h0 < two64)%N -> (Blk.Time h0 < two64)%N -> Blk.SignatureType h0 = "ECDSA"%string ->
  Header_wf (Blk.sign h0 key) /\ length (Blk.Header_payload (Blk.sign h0 key)) <= 200.
Proof.
  intros L1 L2 N1 N2 ST. unfold Blk.sign.
  set (sig := signature_of (Keccak256 (Blk.Header_rlp (Blk.unsignedData h0))) key).
  pose proof (signature_of_length (Keccak256 (Blk.Header_rlp (Blk.unsignedData h0))) key) as Ls.
  fold sig in Ls.
  assert (Hp : length (Blk.Header_payload (Blk.set_Signature h0 sig)) <= 200).
  { unfold Blk.Header_payload, Rlp.enc_uint.
    cbn [Blk.set_Signature Blk.PrevHash Blk.Number Blk.Time Blk.StmtsRoot Blk.SignatureType
         Blk.Signature].
    rewrite ST, !length_app.
    pose proof (enc_string_length_le _ (fits_32 _ L1)).
    pose proof (enc_string_length_le _ (fits_32 _ L2)).
    pose proof (enc_string_length_le _ (fits_be_bytes _ N1)).
    pose proof (enc_string_length_le _ (fits_be_bytes _ N2)).
    pose proof (be_bytes_length_64 _ N1). pose proof (be_bytes_length_64 _ N2).
    pose proof (enc_string_length_le sig ltac:(unfold fits, two64; lia)).
    change (length (Rlp.enc_string (list_byte_of_string "ECDSA"))) with 6.
    lia. }
  split; [|exact Hp].
  split; [exact L1|split; [exact L2|split; [exact N1|split; [exact N2|]]]].
  unfold fits, two64. lia.
Qed.

(** A block made by [NewBlock] from statements whose encodings together
    stay below 2^64 - 256 bytes, written by [WriteBlock], is read back by
    [GetBlock(0)]: the same header and the same statement contents (for a
    keccak256 with 32-byte digests, as [common.Hash] has). *)
Theorem NewBlock_stored (HK : forall x, length (Keccak256 x) = 32) (db : Database)
    (sts : list Stmt.Statement) (key : N) (now : Z)
    (Hs : (N.of_nat (length (concat (map Stmt.EncodeRLP sts))) + 256 < two64)%N) :
  exists b', DbUtil.GetBlock (fst (DbUtil.WriteBlock db (Blk.NewBlock sts key now))) 0 = Some b' /\
             Blk.header b' = Blk.header (Blk.NewBlock sts key now) /\
             map Stmt.kv (Blk.statements b') = map Stmt.kv sts.
Proof.
  set (h0 := {| Blk.PrevHash := zeroHash; Blk.Number := 0; Blk.Time := u64 now;
                Blk.StmtsRoot := Blk.stmts_root sts; Blk.SignatureType := "ECDSA";
                Blk.Signature := [] |}).
  destruct (signed_header_wf key h0 eq_refl (stmts_root_length HK sts)
              (eq_refl : (0 ?= two64)%N = Lt) (u64_lt now) eq_refl) as (Hw & Lh).
  assert (W : Block_wf (Blk.NewBlock sts key now)) by (apply block_wf_of; assumption).
  destruct (GetBlock_encoded (fst (DbUtil.WriteBlock db (Blk.NewBlock sts key now))) 0 _ W
              (Put_same _ _ _)) as (b' & G & Eh & Es & _).
  exists b'. auto.
Qed.

(** A successor made by [CreateSuccessor] from a block whose number is
    below 2^64 - 1 and whose cached hash, if any, has 32 bytes, written by
    [WriteBlock], is read back by [GetBlock] at the next number: the same
    header, linking by its previous hash to the block's hash, and the same
    statement contents (for a keccak256 with 32-byte digests). *)
Theorem CreateSuccessor_stored (HK : forall x, length (Keccak256 x) = 32) (db : Database)
    (b : Blk.Block) (sts : list Stmt.Statement) (key : N) (now : Z)
    (Hprev : forall h, Blk.hash b = Some h -> length h = 32)
    (Hn : (Blk.Number (Blk.header b) + 1 < two64)%N)
    (Hs : (N.of_nat (length (concat (map Stmt.EncodeRLP sts))) + 256 < two64)%N) :
  let sb := fst (Blk.CreateSuccessor b sts key now) in
  exists b'', DbUtil.GetBlock (fst (DbUtil.WriteBlock db sb)) (Blk.Number (Blk.header b) + 1) = Some b'' /\
              Blk.header b'' = Blk.header sb /\
              Blk.PrevHash (Blk.header b'') = fst (Blk.HashOf b) /\
              map Stmt.kv (Blk.statements b'') = map Stmt.kv sts.
Proof.
  cbv zeta. unfold Blk.CreateSuccessor.
  assert (Lp : length (fst (Blk.HashOf b)) = 32).
  { unfold Blk.HashOf. destruct (Blk.hash b) as [h|] eqn:E; [exact (Hprev h eq_refl)|apply HK]. }
  destruct (Blk.HashOf b) as [prev b'] eqn:Eh. cbn [fst] in Lp |- *.
  rewrite u64_succ, (N.mod_small _ _ Hn).
  set (h0 := {| Blk.PrevHash := prev; Blk.Number := Blk.Number (Blk.header b) + 1;
                Blk.Time := u64 now; Blk.StmtsRoot := Blk.stmts_root sts;
                Blk.SignatureType := "ECDSA"; Blk.Signature := [] |}).
  destruct (signed_header_wf key h0 Lp (stmts_root_length HK sts) Hn (u64_lt now) eq_refl)
    as (Hw & Lh).
  set (sb := {| Blk.header := Blk.sign h0 key; Blk.statements := sts;
                Blk.hash := None; Blk.size := None |}).
  assert (W : Block_wf sb) by (apply block_wf_of; assumption).
  destruct (GetBlock_encoded (fst (DbUtil.WriteBlock db sb)) (Blk.Number (Blk.header b) + 1) sb W
              (Put_same _ _ _))
    as (b'' & G & Ehd & Es & _).
  exists b''. split; [exact G|]. rewrite Ehd. auto.
Qed.

End NewBlocks.

Lemma ToyCrypto_Keccak256_length : forall x, length (@Keccak256 ToyCrypto x) = 32.
Proof.
  intros x. change (length (firstn 32 (x ++ repeat x00 32)) = 32).
  rewrite length_firstn, length_app, repeat_length. lia.
Qed.

Lemma NewBlock_stored_witness :
  let sts := [Stmt.NewStatement (list_byte_of_string "foo") (list_byte_of_string "bar")] in
  (forall x, length (@Keccak256 ToyCrypto x) = 32) /\
  (N.of_nat (length (concat (map Stmt.EncodeRLP sts))) + 256 < two64)%N /\
  exists b', DbUtil.GetBlock (fst (DbUtil.WriteBlock (fun _ => None) (@Blk.NewBlock ToyCrypto sts 1 7))) 0
               = Some b' /\
             Blk.header b' = Blk.header (@Blk.NewBlock ToyCrypto sts 1 7) /\
             map Stmt.kv (Blk.statements b') = map Stmt.kv sts.
Proof.
  intros sts. assert (Hs : (N.of_nat (length (concat (map Stmt.EncodeRLP sts))) + 256 < two64)%N)
    by (vm_compute; reflexivity).
  split; [exact ToyCrypto_Keccak256_length|split; [exact Hs|]].
  exact (@NewBlock_stored ToyCrypto ToyCrypto_Keccak256_length (fun _ => None) sts 1 7 Hs).
Defined.

Lemma CreateSuccessor_stored_witness :
  let b := @Genesis.NewBlock ToyCrypto 1 0 in
  let sts := [Stmt.NewStatement (list_byte_of_string "foo") (list_byte_of_string "bar")] in
  let sb := fst (@Blk.CreateSuccessor ToyCrypto b sts 2 7) in
  (forall h, Blk.hash b = Some h -> length h = 32) /\
  (Blk.Number (Blk.header b) + 1 < two64)%N /\
  (N.of_nat (length (concat (map Stmt.EncodeRLP sts))) + 256 < two64)%N /\
  exists b'', DbUtil.GetBlock (fst (DbUtil.WriteBlock (fun _ => None) sb)) 1 = Some b'' /\
              Blk.header b'' = Blk.header sb /\
              Blk.PrevHash (Blk.header b'') = fst (@Blk.HashOf ToyCrypto b) /\
              map Stmt.kv (Blk.statements b'') = map Stmt.kv sts.
Proof.
  intros b sts sb.
  assert (Hp : forall h, Blk.hash b = Some h -> length h = 32) by (intros h E; discriminate E).
  assert (Hn : (Blk.Number (Blk.header b) + 1 < two64)%N) by (vm_compute; reflexivity).
  assert (Hs : (N.of_nat (length (concat (map Stmt.EncodeRLP sts))) + 256 < two64)%N)
    by (vm_compute; reflexivity).
  split; [exact Hp|split; [exact Hn|split; [exact Hs|]]].
  exact (@CreateSuccessor_stored ToyCrypto ToyCrypto_Keccak256_length (fun _ => None) b sts 2 7
           Hp Hn Hs).
Defined.
